(** * go-storage: the key-value store and its transaction log

    A shallow embedding of [storage.go]: the guarded map ([Get], [Put],
    [Delete]), the log record format written by [FileTransactionLogger.Run]
    and read back by [FileTransactionLogger.ReadEvents], the start-up replay
    of [initializeTransactionLog] and [main].

    Conventions.
    - A Go [string] is the list of the runes that Go's scanner decodes from
      it (one [N] per code point); text that is not valid UTF-8 is outside
      the model.
    - [uint64] and [byte] are [N] with the wrap-around written out.
    - The standard-library calls of the source ([fmt.Sscanf], [fmt.Fprintf],
      [bufio.Scanner], [os.OpenFile]) are modelled next to the code that
      calls them, for the one format string the source uses. *)

From Stdlib Require Import NArith List Lia Ascii String Sorted.
From stdpp Require Import base option numbers list gmap.

Local Open Scope N_scope.

Abbreviation rune := N (only parsing).

(** ** Runes and strings *)

Module GoString.

Definition TAB : rune := 9.
Definition NL : rune := 10.
Definition CR : rune := 13.

(** A Rocq string literal read as runes (one per character). *)
Definition runes (s : string) : list rune :=
  List.map N_of_ascii (list_ascii_of_string s).

(** [utf8.RuneLen]: the number of bytes of a rune in a Go string. *)
Definition utf8_len (r : rune) : N :=
  if r <? 0x80 then 1
  else if r <? 0x800 then 2
  else if r <? 0x10000 then 3
  else 4.

(** [len(s)] of a Go string: its length in bytes. *)
Definition byte_len (s : list rune) : N :=
  foldr (fun r n => utf8_len r + n) 0 s.

End GoString.
Import GoString.

(** ** strconv: decimal numerals *)

Module Strconv.

Definition uint64_limit : N := 2 ^ 64.

(** The digit loop of [strconv.FormatUint(n, 10)]: the least significant
    digit is produced first and put in front of the ones already there. *)
Fixpoint format_digits (fuel : nat) (n : N) (acc : list rune) : list rune :=
  match fuel with
  | O => acc
  | S f =>
      let acc' := (48 + n mod 10) :: acc in
      if n / 10 =? 0 then acc' else format_digits f (n / 10) acc'
  end.

(** A [uint64] has at most twenty decimal digits. *)
Definition FormatUint (n : N) : list rune := format_digits 20 n [].

Definition isDigit (r : rune) : bool := (48 <=? r) && (r <=? 57).

Definition digits_value (acc : N) (tok : list rune) : N :=
  fold_left (fun a d => a * 10 + (d - 48)) tok acc.

(** [strconv.ParseUint(tok, 10, 64)] on a token of decimal digits: the
    value, or [None] (ErrRange) when it does not fit 64 bits. *)
Definition ParseUint (tok : list rune) : option N :=
  let v := digits_value 0 tok in
  if v <? uint64_limit then Some v else None.

End Strconv.
Import Strconv.

(** ** Errors *)

(** What [fmt.Sscanf] can report on the format of the log. *)
Inductive ScanError : Type :=
| UnexpectedNewline      (* "unexpected newline" *)
| UnexpectedEOF          (* io.EOF: the input ended where a verb needed a rune *)
| ExpectedInteger        (* "expected integer" *)
| ValueOutOfRange        (* strconv.ErrRange *)
| UnsignedOverflow       (* "unsigned integer overflow on token" *)
| ExpectedSpace          (* "expected space in input to match format" *)
| NewlineInInput.        (* "newline in input does not match format" *)

(** The [error] values of the program. *)
Inductive error : Type :=
| ErrorNoSuchKey                         (* errors.New("No such key") *)
| ErrInputParse (cause : ScanError)      (* "input parse error: %w" *)
| ErrOutOfSequence                       (* "transaction numbers out of sequence" *)
| ErrReadFailure                         (* "transaction log read failure: %w" (bufio.ErrTooLong) *)
| ErrCannotOpen                          (* "Cannot open transaction log file: ..." *)
| ErrCreateLogger (cause : error)        (* "failed to create event logger: %w" *)
| ErrIO (code : N).                      (* an error of the operating system *)

(** Fallible computations of the scanner. *)
Abbreviation result A := (sum A ScanError) (only parsing).

Definition bind {A B} (m : result A) (k : A -> result B) : result B :=
  match m with
  | inl a => k a
  | inr e => inr e
  end.

Notation "'do' x <- m ; k" := (bind m (fun x => k))
  (at level 10, x name, m at level 100, k at level 200).
Notation "'do' ' p <- m ; k" := (bind m (fun x => let 'p := x in k))
  (at level 10, p pattern, m at level 100, k at level 200).

(** ** fmt: scanning and printing *)

Module Fmt.

(** The table [space] of fmt/scan.go. *)
Definition space : list (N * N) :=
  [ (0x0009, 0x000d); (0x0020, 0x0020); (0x0085, 0x0085); (0x00a0, 0x00a0);
    (0x1680, 0x1680); (0x2000, 0x200a); (0x2028, 0x2029); (0x202f, 0x202f);
    (0x205f, 0x205f); (0x3000, 0x3000) ].

Fixpoint in_ranges (rx : N) (tbl : list (N * N)) : bool :=
  match tbl with
  | [] => false
  | (lo, hi) :: tbl' =>
      if rx <? lo then false
      else if rx <=? hi then true
      else in_ranges rx tbl'
  end.

Definition isSpace (r : rune) : bool :=
  if 0x10000 <=? r then false else in_ranges r space.

(** [ss.SkipSpace] with [nlIsSpace = false], as [Sscanf] sets it: spaces
    are dropped, a newline is an error. (A carriage return is a space, so
    the source's special case for "\r\n" ends in the same error.) *)
Fixpoint SkipSpace (s : list rune) : result (list rune) :=
  match s with
  | [] => inl []
  | r :: s' =>
      if r =? NL then inr UnexpectedNewline
      else if isSpace r then SkipSpace s'
      else inl s
  end.

(** The loop [for isSpace(inputc) && inputc != '\n'] of [ss.advance]. *)
Fixpoint skip_blanks (s : list rune) : list rune :=
  match s with
  | [] => []
  | r :: s' => if isSpace r && negb (r =? NL) then skip_blanks s' else s
  end.

(** [ss.advance] on a format that starts with one tab followed by a verb:
    a space of the format that stands alone matches the end of the input
    or at least one space of the input that is not a newline. *)
Definition advance_tab (s : list rune) : result (list rune) :=
  match s with
  | [] => inl []
  | r :: s' =>
      if negb (isSpace r) then inr ExpectedSpace
      else if r =? NL then inr NewlineInInput
      else inl (skip_blanks s')
  end.

(** [ss.accept(digits)] repeated: the longest run of decimal digits. *)
Fixpoint accept_digits (s : list rune) : list rune * list rune :=
  match s with
  | [] => ([], [])
  | r :: s' =>
      if isDigit r
      then let (tok, rest) := accept_digits s' in (r :: tok, rest)
      else ([], s)
  end.

(** [ss.scanUint('d', bitSize)]. *)
Definition scanUint (bitSize : N) (s : list rune) : result (N * list rune) :=
  do s1 <- SkipSpace s;
  match s1 with
  | [] => inr UnexpectedEOF
  | _ =>
      let (tok, rest) := accept_digits s1 in
      match tok with
      | [] => inr ExpectedInteger
      | _ =>
          match ParseUint tok with
          | None => inr ValueOutOfRange
          | Some i =>
              if i <? 2 ^ bitSize then inl (i, rest)
              else inr UnsignedOverflow
          end
      end
  end.

(** [ss.token(true, notSpace)]: the runes up to the next space. *)
Fixpoint token (s : list rune) : list rune * list rune :=
  match s with
  | [] => ([], [])
  | r :: s' =>
      if isSpace r then ([], s)
      else let (tok, rest) := token s' in (r :: tok, rest)
  end.

(** [ss.convertString('s')]. *)
Definition convertString (s : list rune) : result (list rune * list rune) :=
  do s1 <- SkipSpace s;
  match s1 with
  | [] => inr UnexpectedEOF
  | _ => inl (token s1)
  end.

End Fmt.
Import Fmt.

(** ** bufio: the line scanner *)

Module Bufio.

Definition MaxScanTokenSize : N := 65536.

(** [dropCR]: a line loses one trailing carriage return. *)
Definition dropCR (data : list rune) : list rune :=
  match last data with
  | Some r => if r =? CR then removelast data else data
  | None => data
  end.

(** A line that fills the scanner's buffer without a newline in it. *)
Definition too_long (line : list rune) : bool :=
  MaxScanTokenSize <=? byte_len line.

(** [Scanner.Scan] with [ScanLines], run to the end of [data]: the lines
    it returns, and [true] when it stopped on [ErrTooLong]. [cur] holds
    the runes of the line being read. *)
Fixpoint scan_from (cur data : list rune) : list (list rune) * bool :=
  match data with
  | [] =>
      match cur with
      | [] => ([], false)
      | _ => if too_long cur then ([], true) else ([dropCR cur], false)
      end
  | r :: data' =>
      if r =? NL then
        if too_long cur then ([], true)
        else let (ls, e) := scan_from [] data' in (dropCR cur :: ls, e)
      else scan_from (cur ++ [r]) data'
  end.

Definition scan_lines (data : list rune) : list (list rune) * bool :=
  scan_from [] data.

End Bufio.
Import Bufio.

(** ** The store *)

(** [store.data]: the map under the lock. Every function below takes the
    lock for its whole access, so a call is one atomic step on the map. *)
Abbreviation Store := (gmap (list rune) (list rune)) (only parsing).

Definition Get (data : Store) (key : list rune) : list rune * option error :=
  match data !! key with
  | None => ([], Some ErrorNoSuchKey)
  | Some value => (value, None)
  end.

Definition Put (data : Store) (key value : list rune) : Store * option error :=
  (<[key := value]> data, None).

Definition Delete (data : Store) (key : list rune) : Store * option error :=
  (delete key data, None).

(** ** Events *)

(** [type EventType byte], with [EventDelete = 1] and [EventPut = 2]. *)
Definition EventDelete : N := 1.
Definition EventPut : N := 2.

Record Event : Type := mkEvent {
  Sequence : N;            (* uint64 *)
  EventType : N;           (* byte *)
  Key : list rune;
  Value : list rune
}.

(** ** The file transaction logger *)

(** [events] and [errors] hold what is buffered in the two channels that
    [Run] makes; [file] is the content of the log file. *)
Record FileTransactionLogger : Type := mkLogger {
  events : list Event;
  errors : list error;
  lastSequence : N;
  file : list rune
}.

(** [os.OpenFile] gives the content of the log, or fails. (The error
    returned does not hold the cause: the source gives [%w] no operand.) *)
Definition NewFileTransactionLogger (opened : list rune + error)
  : option FileTransactionLogger * option error :=
  match opened with
  | inr _ => (None, Some ErrCannotOpen)
  | inl content =>
      (Some {| events := []; errors := []; lastSequence := 0; file := content |},
       None)
  end.

(** [fmt.Sscanf(line, "%d\t%d\t%s\t%s", &e.Sequence, &e.EventType, &e.Key,
    &e.Value)]: before every verb [doScanf] skips spaces, and between two
    verbs it matches the tab of the format. What follows the fourth value
    on the line is not looked at. *)
Definition Sscanf (line : list rune) : result Event :=
  do s <- SkipSpace line;
  do '(sequence, s) <- scanUint 64 s;
  do s <- advance_tab s;
  do s <- SkipSpace s;
  do '(eventType, s) <- scanUint 8 s;
  do s <- advance_tab s;
  do s <- SkipSpace s;
  do '(key, s) <- convertString s;
  do s <- advance_tab s;
  do s <- SkipSpace s;
  do '(value, _) <- convertString s;
  inl {| Sequence := sequence; EventType := eventType;
         Key := key; Value := value |}.

(** What the goroutine of [ReadEvents] sends, in the order it sends it. *)
Inductive Signal : Type :=
| OutEvent (e : Event)       (* outEvent <- e *)
| OutError (err : error).    (* outError <- err *)

(** The loop [for scanner.Scan()] of [ReadEvents] over the lines the scanner
    returns; [tooLong] is [scanner.Err() != nil] after the loop. The result
    is what was sent and the last sequence number remembered. (The source
    scans every line into the same variable [e]; [Sscanf] assigns its four
    fields on success and the loop returns on failure, so nothing of an
    earlier line is ever sent again.) *)
Fixpoint read_loop (last : N) (lines : list (list rune)) (tooLong : bool)
  : list Signal * N :=
  match lines with
  | [] => (if tooLong then [OutError ErrReadFailure] else [], last)
  | line :: lines' =>
      match Sscanf line with
      | inr err => ([OutError (ErrInputParse err)], last)
      | inl e =>
          if Sequence e <=? last then ([OutError ErrOutOfSequence], last)
          else
            let (sent, last') := read_loop (Sequence e) lines' tooLong in
            (OutEvent e :: sent, last')
      end
  end.

(** [ReadEvents], with its goroutine run to its end: the file is read from
    its beginning, and [l.lastSequence] is what the goroutine leaves. *)
Definition ReadEvents (l : FileTransactionLogger)
  : list Signal * FileTransactionLogger :=
  let (lines, tooLong) := scan_lines (file l) in
  let (sent, last) := read_loop (lastSequence l) lines tooLong in
  (sent, {| events := events l; errors := errors l;
            lastSequence := last; file := file l |}).

(** The events and the errors of a stream. *)
Definition sent_events (sent : list Signal) : list Event :=
  omap (fun s => match s with OutEvent e => Some e | OutError _ => None end) sent.

Definition sent_errors (sent : list Signal) : list error :=
  omap (fun s => match s with OutError err => Some err | OutEvent _ => None end) sent.

(** [fmt.Fprintf(l.file, "%d\t%d\t%s\t%s\n", ...)]: the bytes of one record. *)
Definition Fprintf (sequence eventType : N) (key value : list rune) : list rune :=
  FormatUint sequence ++ TAB :: FormatUint eventType ++ TAB :: key ++ TAB :: value ++ [NL].

(** What the operating system does with one write: all of it, or only the
    first [n] runes and an error. *)
Inductive WriteOutcome : Type :=
| WriteOK
| WriteFailed (n : nat) (err : error).

(** [l.lastSequence++] on a uint64. *)
Definition next_sequence (last : N) : N := (last + 1) mod uint64_limit.

(** [Run]: the two channels are made, empty. *)
Definition Run (l : FileTransactionLogger) : FileTransactionLogger :=
  {| events := []; errors := []; lastSequence := lastSequence l; file := file l |}.

(** [WritePut] and [WriteDelete]: the event that is sent on [l.events]. *)
Definition WritePut (key value : list rune) : Event :=
  {| Sequence := 0; EventType := EventPut; Key := key; Value := value |}.

Definition WriteDelete (key : list rune) : Event :=
  {| Sequence := 0; EventType := EventDelete; Key := key; Value := [] |}.

(** [Err()]. *)
Definition Err (l : FileTransactionLogger) : list error := errors l.

(** ** The writer goroutine of [Run] *)

(** [make(chan Event, 16)] and [make(chan error, 1)]. *)
Definition events_capacity : nat := 16.
Definition errors_capacity : nat := 1.

(** One turn of [for e := range events] on the event [e] it received: the
    sequence number is incremented, the record is written, and on a failed
    write the error is sent and the goroutine returns ([false]). *)
Definition write_event (l : FileTransactionLogger) (e : Event) (w : WriteOutcome)
  : FileTransactionLogger * bool :=
  let sequence := next_sequence (lastSequence l) in
  let record := Fprintf sequence (EventType e) (Key e) (Value e) in
  match w with
  | WriteOK =>
      ({| events := events l; errors := errors l;
          lastSequence := sequence; file := file l ++ record |}, true)
  | WriteFailed n err =>
      ({| events := events l; errors := errors l ++ [err];
          lastSequence := sequence; file := file l ++ take n record |}, false)
  end.

Definition with_events (l : FileTransactionLogger) (q : list Event)
  : FileTransactionLogger :=
  {| events := q; errors := errors l;
     lastSequence := lastSequence l; file := file l |}.

(** The logger together with its goroutine: [running] is false once the
    goroutine has returned. *)
Record Writer : Type := mkWriter {
  logger : FileTransactionLogger;
  running : bool
}.

Inductive Label : Type :=
| Submit (e : Event)                       (* l.events <- e, completed *)
| Drain (e : Event) (w : WriteOutcome).    (* one turn of the goroutine *)

(** A send on [l.events] completes only while the buffer has room; the
    goroutine takes the oldest buffered event. *)
Inductive step : Writer -> Label -> Writer -> Prop :=
| step_submit l r e :
    (length (events l) < events_capacity)%nat ->
    step (mkWriter l r) (Submit e)
         (mkWriter (with_events l (events l ++ [e])) r)
| step_drain l e q w :
    events l = e :: q ->
    step (mkWriter l true) (Drain e w)
         (mkWriter (write_event (with_events l q) e w).1
                   (write_event (with_events l q) e w).2).

Inductive steps : Writer -> list Label -> Writer -> Prop :=
| steps_nil s : steps s [] s
| steps_cons s a s' tr s'' : step s a s' -> steps s' tr s'' -> steps s (a :: tr) s''.

Definition submitted (tr : list Label) : list Event :=
  omap (fun a => match a with Submit e => Some e | Drain _ _ => None end) tr.

Definition written (tr : list Label) : list Event :=
  omap (fun a => match a with Drain e _ => Some e | Submit _ => None end) tr.

Definition write_ok (a : Label) : bool :=
  match a with
  | Drain _ (WriteFailed _ _) => false
  | _ => true
  end.

(** The goroutine run on the events [es], every write succeeding. *)
Fixpoint write_all (l : FileTransactionLogger) (es : list Event)
  : FileTransactionLogger :=
  match es with
  | [] => l
  | e :: es' => write_all (write_event l e WriteOK).1 es'
  end.

(** ** Start-up *)

(** The [switch e.EventType] of the replay loop. *)
Definition apply_event (data : Store) (e : Event) : Store * option error :=
  if EventType e =? EventDelete then Delete data (Key e)
  else if EventType e =? EventPut then Put data (Key e) (Value e)
  else (data, None).

(** The loop [for ok && err == nil] with its [select] over what
    [ReadEvents] sends. Events arrive one by one (the channel has no
    buffer). An error is sent to a buffered channel just before both
    channels are closed: [late] says that the loop comes back to [select]
    only after that and that [select] takes the closed event channel. *)
Fixpoint replay (data : Store) (sent : list Signal) (late : bool)
  : Store * option error :=
  match sent with
  | [] => (data, None)
  | OutEvent e :: sent' =>
      match apply_event data e with
      | (data', Some err) => (data', Some err)
      | (data', None) => replay data' sent' late
      end
  | OutError err :: _ => if late then (data, None) else (data, Some err)
  end.

(** [initializeTransactionLog]: the store, the global [logger] and the
    error it returns. *)
Definition initializeTransactionLog
  (opened : list rune + error) (data : Store) (late : bool)
  : Store * option FileTransactionLogger * option error :=
  match NewFileTransactionLogger opened with
  | (Some l, _) =>
      let (sent, l') := ReadEvents l in
      let (data', err) := replay data sent late in
      (data', Some (Run l'), err)
  | (None, Some err) => (data, None, Some (ErrCreateLogger err))
  | (None, None) => (data, None, None)
  end.

(** How [main] ends up: serving requests, or stopped by [log.Fatal]. *)
Inductive Process : Type :=
| Serving (data : Store) (logger : option FileTransactionLogger)
| Fatal (err : error).

(** [main]: the result of [initializeTransactionLog] is dropped; [listen]
    is what [http.ListenAndServe] returns if it cannot serve. *)
Definition main (opened : list rune + error) (late : bool) (listen : option error)
  : Process :=
  let '(data, logger, _) := initializeTransactionLog opened ∅ late in
  match listen with
  | Some err => Fatal err
  | None => Serving data logger
  end.

(** ** The request handlers *)

(** What a handler writes to its [http.ResponseWriter]: nothing, the bytes
    given to [w.Write], or, through [http.Error], the text of an error
    followed by a newline. *)
Inductive Body : Type :=
| NoBody
| Text (s : list rune)
| ErrorText (err : error).

Record Response : Type := mkResponse {
  status : N;
  body : Body
}.

(** How a run of a handler ends: it writes its response and returns; or
    it panics, so that no response is written; or it waits at the send of
    an event on [l.events]. *)
Inductive Outcome : Type :=
| Responded (resp : Response)
| Panicked
| Waiting (e : Event).

(** [errors.Is(err, ErrorNoSuchKey)]: the error itself or one it wraps
    with [%w]. *)
Fixpoint is_no_such_key (err : error) : bool :=
  match err with
  | ErrorNoSuchKey => true
  | ErrCreateLogger cause => is_no_such_key cause
  | _ => false
  end.

(** [logger.WritePut(...)] and [logger.WriteDelete(...)] on the global
    [logger], which is [None] when it is the nil interface that a failed
    open leaves: the call on nil panics. On a logger that
    [initializeTransactionLog] has left, [Run] has made the channel; the
    send [l.events <- e] completes while the buffer has room, as in
    [step_submit], and otherwise the caller waits. *)
Inductive Sending : Type :=
| Sent (l : FileTransactionLogger)
| NilLogger
| NoRoom.

Definition send (lg : option FileTransactionLogger) (e : Event) : Sending :=
  match lg with
  | None => NilLogger
  | Some l =>
      if (length (events l) <? events_capacity)%nat
      then Sent (with_events l (events l ++ [e]))
      else NoRoom
  end.

(** The three handlers, each run with no other request and no turn of the
    writer's goroutine in between. A handler gives the store and the
    logger it leaves and how it ends; [read] is what [io.ReadAll(r.Body)]
    returns. The store is changed before the event is sent, and the header
    of the response is written after. *)
Definition keyValuePutHandler (data : Store) (lg : option FileTransactionLogger)
  (key : list rune) (read : list rune + error)
  : Store * option FileTransactionLogger * Outcome :=
  match read with
  | inr err => (data, lg, Responded {| status := 500; body := ErrorText err |})
  | inl value =>
      match Put data key value with
      | (data', Some err) =>
          (data', lg, Responded {| status := 500; body := ErrorText err |})
      | (data', None) =>
          match send lg (WritePut key value) with
          | Sent l' => (data', Some l', Responded {| status := 201; body := NoBody |})
          | NilLogger => (data', lg, Panicked)
          | NoRoom => (data', lg, Waiting (WritePut key value))
          end
      end
  end.

Definition keyValueGetHandler (data : Store) (key : list rune) : Response :=
  match Get data key with
  | (_, Some err) =>
      if is_no_such_key err
      then {| status := 404; body := ErrorText err |}
      else {| status := 500; body := ErrorText err |}
  | (value, None) => {| status := 200; body := Text value |}
  end.

Definition keyValueDeleteHandler (data : Store) (lg : option FileTransactionLogger)
  (key : list rune) : Store * option FileTransactionLogger * Outcome :=
  let delete_and_log :=
    match Delete data key with
    | (data', Some err) =>
        (data', lg, Responded {| status := 500; body := ErrorText err |})
    | (data', None) =>
        match send lg (WriteDelete key) with
        | Sent l' => (data', Some l', Responded {| status := 200; body := NoBody |})
        | NilLogger => (data', lg, Panicked)
        | NoRoom => (data', lg, Waiting (WriteDelete key))
        end
    end in
  match Get data key with
  | (_, Some notFoundErr) =>
      if is_no_such_key notFoundErr
      then (data, lg, Responded {| status := 404; body := ErrorText notFoundErr |})
      else delete_and_log
  | (_, None) => delete_and_log
  end.

(** A request as the router hands it to a handler. *)
Inductive Request : Type :=
| PUT (key : list rune) (read : list rune + error)
| GET (key : list rune)
| DELETE (key : list rune).

Definition serve (data : Store) (lg : option FileTransactionLogger) (req : Request)
  : Store * option FileTransactionLogger * Outcome :=
  match req with
  | PUT key read => keyValuePutHandler data lg key read
  | GET key => (data, lg, Responded (keyValueGetHandler data key))
  | DELETE key => keyValueDeleteHandler data lg key
  end.

(** A schedule of the server: requests handled one at a time, and turns of
    the writer's goroutine between them. *)
Inductive Action : Type :=
| Serve (req : Request)
| Turn (w : WriteOutcome).

(** The global [logger] of a server state: nil when there is no writer. *)
Definition logger_of (wr : option Writer) : option FileTransactionLogger :=
  match wr with
  | Some w => Some (logger w)
  | None => None
  end.

(** A schedule run from a store and a writer, as far as it is defined:
    every request is answered before the next action (a request whose
    handler panics or waits ends the run with [None]), and a turn of the
    goroutine takes the oldest buffered event (with the goroutine returned
    or the buffer empty there is no turn). The result is the store, the
    writer and the responses in order. *)
Fixpoint run (data : Store) (wr : option Writer) (sched : list Action)
  : option (Store * option Writer * list Response) :=
  match sched with
  | [] => Some (data, wr, [])
  | Serve req :: sched' =>
      match serve data (logger_of wr) req with
      | (data', lg', Responded resp) =>
          let wr' :=
            match wr, lg' with
            | Some w, Some l' => Some (mkWriter l' (running w))
            | _, _ => wr
            end in
          match run data' wr' sched' with
          | Some (data'', wr'', resps) => Some (data'', wr'', resp :: resps)
          | None => None
          end
      | _ => None
      end
  | Turn w :: sched' =>
      match wr with
      | Some (mkWriter l true) =>
          match events l with
          | e :: q =>
              run data
                (Some (mkWriter (write_event (with_events l q) e w).1
                                (write_event (with_events l q) e w).2))
                sched'
          | [] => None
          end
      | _ => None
      end
  end.

Definition turn_ok (a : Action) : bool :=
  match a with
  | Turn (WriteFailed _ _) => false
  | _ => true
  end.

(** The events of the PUT requests of a schedule whose bodies are read. *)
Definition puts_of (sched : list Action) : list Event :=
  omap (fun a => match a with
                 | Serve (PUT key (inl value)) => Some (WritePut key value)
                 | _ => None
                 end) sched.

(** An action that is not a DELETE request. *)
Definition not_delete (a : Action) : Prop :=
  match a with
  | Serve (DELETE _) => False
  | _ => True
  end.

(** The event that the handler of a request sends to the logger, if it
    gets that far: a PUT whose body is read sends a Put, a DELETE of a key
    that is in the store sends a Delete. *)
Definition sends (data : Store) (req : Request) : option Event :=
  match req with
  | PUT key (inl value) => Some (WritePut key value)
  | PUT _ (inr _) => None
  | GET _ => None
  | DELETE key =>
      match data !! key with
      | Some _ => Some (WriteDelete key)
      | None => None
      end
  end.

(** ** Vocabulary of the properties *)

(** A mutation of the store, as the request layer calls it. *)
Inductive Op : Type :=
| OpPut (key value : list rune)
| OpDelete (key : list rune).

Definition op_key (op : Op) : list rune :=
  match op with
  | OpPut key _ => key
  | OpDelete key => key
  end.

Definition apply_op (data : Store) (op : Op) : Store :=
  match op with
  | OpPut key value => (Put data key value).1
  | OpDelete key => (Delete data key).1
  end.

Definition apply_ops (data : Store) (ops : list Op) : Store :=
  fold_left apply_op ops data.

(** No operation of [ops] mutates [key]. *)
Definition untouched (key : list rune) (ops : list Op) : Prop :=
  Forall (fun op => op_key op <> key) ops.

(** No operation of [ops] is a Put of [key]. *)
Definition never_put (key : list rune) (ops : list Op) : Prop :=
  Forall (fun op => forall value, op <> OpPut key value) ops.

(** The records of the events [es] in the order given, numbered on from
    [last]: what the log gains when they are written in that order. *)
Fixpoint records (last : N) (es : list Event) : list rune :=
  match es with
  | [] => []
  | e :: es' =>
      Fprintf (next_sequence last) (EventType e) (Key e) (Value e)
        ++ records (next_sequence last) es'
  end.

(** The text that the record format gives the events [es], numbered on
    from [last]: for each event one line of sequence number and kind in
    decimal, key and value, with a tab between two fields and a newline at
    the end. *)
Fixpoint log_text (last : N) (es : list Event) : list rune :=
  match es with
  | [] => []
  | e :: es' =>
      FormatUint (next_sequence last) ++ [TAB]
        ++ FormatUint (EventType e) ++ [TAB]
        ++ Key e ++ [TAB] ++ Value e ++ [NL]
        ++ log_text (next_sequence last) es'
  end.

(** The logger that [NewFileTransactionLogger] returns on a log with the
    given content. *)
Definition fresh (content : list rune) : FileTransactionLogger :=
  {| events := []; errors := []; lastSequence := 0; file := content |}.

(** The events [es] as they are expected back from the log: numbered on
    from [last], kind, key and value as submitted. *)
Fixpoint sequenced (last : N) (es : list Event) : list Event :=
  match es with
  | [] => []
  | e :: es' =>
      {| Sequence := last + 1; EventType := EventType e;
         Key := Key e; Value := Value e |} :: sequenced (last + 1) es'
  end.

(** A string that [%s] reads back whole: not empty, no white space. *)
Definition clean (s : list rune) : Prop :=
  s <> [] /\ Forall (fun r => isSpace r = false) s.

(** A record without its newline: the line the scanner returns for it. *)
Definition record_line (sequence eventType : N) (key value : list rune) : list rune :=
  FormatUint sequence ++ TAB :: FormatUint eventType ++ TAB :: key ++ TAB :: value.

Fixpoint record_lines (last : N) (es : list Event) : list (list rune) :=
  match es with
  | [] => []
  | e :: es' =>
      record_line (next_sequence last) (EventType e) (Key e) (Value e)
        :: record_lines (next_sequence last) es'
  end.

(** The record of an event that carries its sequence number. *)
Definition print_event (e : Event) : list rune :=
  Fprintf (Sequence e) (EventType e) (Key e) (Value e).

(** An event, numbered as it is written, whose record the replayer reads
    back: the kind is a byte, key and value are clean, and the record,
    newline included, is not longer than the scanner's buffer. *)
Definition readable (e : Event) : Prop :=
  EventType e < 256 /\ clean (Key e) /\ clean (Value e) /\
  byte_len (print_event e) <= MaxScanTokenSize.

(** The greatest of [start] and the sequence numbers [seqs]. *)
Definition running_max (start : N) (seqs : list N) : N :=
  fold_left N.max seqs start.

(** Every sequence number of [seqs] is strictly greater than the running
    maximum of [start] and the ones before it. *)
Fixpoint in_order (start : N) (seqs : list N) : bool :=
  match seqs with
  | [] => true
  | n :: seqs' => (start <? n) && in_order (N.max start n) seqs'
  end.

(** A string without the two delimiters that the specification names. *)
Definition delimiter_free (s : list rune) : Prop :=
  Forall (fun r => r <> TAB /\ r <> NL) s.

(** The round trip as the specification words it, for a writer started
    on an empty log: once the events [es], with keys and values free of
    tab and newline, have been submitted and written, replay of the log
    sends exactly these events, numbered from 1. *)
Definition roundtrip_on_empty_log (es : list Event) : Prop :=
  Forall (fun e => delimiter_free (Key e) /\ delimiter_free (Value e)) es ->
  forall tr s,
    steps (mkWriter (Run (fresh [])) true) tr s ->
    forallb write_ok tr = true ->
    events (logger s) = [] ->
    submitted tr = es ->
    (ReadEvents (fresh (file (logger s)))).1 = map OutEvent (sequenced 0 es).

(** The numbering as the specification words it, with no bound on the last
    sequence number of the replay: the records written after a replay
    without error carry the true successors of that number. *)
Definition sequence_continues (content : list rune) (tr : list Label) : Prop :=
  forall sent l s,
    ReadEvents (fresh content) = (sent, l) ->
    sent_errors sent = [] ->
    steps (mkWriter (Run l) true) tr s ->
    forallb write_ok tr = true ->
    file (logger s)
    = file l ++ flat_map print_event (sequenced (lastSequence l) (written tr)).

(** The fields of a line as [Sscanf] sees them: the maximal runs of runes
    that are not white space. [count_fields inside s] counts the fields
    that begin in [s]; [inside] says that [s] continues a field. *)
Fixpoint count_fields (inside : bool) (s : list rune) : nat :=
  match s with
  | [] => 0%nat
  | r :: s' =>
      if isSpace r then count_fields false s'
      else ((if inside then 0 else 1) + count_fields true s')%nat
  end.

Fixpoint skip_spaces (s : list rune) : list rune :=
  match s with
  | [] => []
  | r :: s' => if isSpace r then skip_spaces s' else s
  end.


(** A decimal numeral: digits, at least one. *)
Definition numeral (tok : list rune) : Prop :=
  tok <> [] /\ Forall (fun r => isDigit r = true) tok.





(** A rune that separates fields within a line: white space other than
    the newline. *)
Definition blank (r : rune) : Prop := isSpace r = true /\ r <> NL.

(** The input stands at the first rune of a field. *)
Definition at_field (s : list rune) : Prop :=
  match s with [] => False | r :: _ => isSpace r = false end.

(** The input is exhausted or stands at white space. *)
Definition at_end_of_field (s : list rune) : Prop :=
  match s with [] => True | r :: _ => isSpace r = true end.

(** ** Sample runs *)

(** Put("a", "1") submitted to a writer started on an empty log, and
    written. *)
Definition sample_put : Event := WritePut (runes "a") (runes "1").

Definition sample_run : list Label :=
  [Submit sample_put; Drain sample_put WriteOK].

Definition sample_written : Writer :=
  mkWriter {| events := []; errors := []; lastSequence := 1;
              file := Fprintf 1 EventPut (runes "a") (runes "1") |} true.

(** The same event queued, its write failing with nothing written, and a
    second event submitted after that. *)
Definition sample_queued : Writer :=
  mkWriter {| events := [sample_put]; errors := []; lastSequence := 0;
              file := [] |} true.

Definition sample_failed : Writer :=
  mkWriter {| events := []; errors := [ErrIO 5]; lastSequence := 1;
              file := [] |} false.

Definition sample_after_failure : Writer :=
  mkWriter {| events := [WriteDelete (runes "a")]; errors := [ErrIO 5];
              lastSequence := 1; file := [] |} false.

(** A log with one record of sequence number 5, the logger its replay
    leaves, and two events submitted and written after that replay. *)
Definition sample_prior_log : list rune :=
  Fprintf 5 EventPut (runes "x") (runes "y").

Definition sample_prior_event : Event :=
  {| Sequence := 5; EventType := EventPut; Key := runes "x"; Value := runes "y" |}.

Definition sample_replayed : FileTransactionLogger :=
  {| events := []; errors := []; lastSequence := 5; file := sample_prior_log |}.

Definition sample_put2 : Event := WritePut (runes "b") (runes "2").

Definition sample_run2 : list Label :=
  [Submit sample_put; Submit sample_put2;
   Drain sample_put WriteOK; Drain sample_put2 WriteOK].

Definition sample_written2 : Writer :=
  mkWriter {| events := []; errors := []; lastSequence := 7;
              file := sample_prior_log
                        ++ Fprintf 6 EventPut (runes "a") (runes "1")
                        ++ Fprintf 7 EventPut (runes "b") (runes "2") |} true.

(** Sixteen events, the writer whose buffer holds them all, and the writer
    that has written them all. *)
Definition sample_batch : list Event :=
  map (fun r => WritePut [r] [r])
    [97; 98; 99; 100; 101; 102; 103; 104; 105; 106; 107; 108; 109; 110; 111; 112].

Definition sample_full : Writer :=
  mkWriter (with_events (Run (fresh [])) sample_batch) true.

Definition sample_drained : Writer :=
  mkWriter (with_events (write_all (Run (fresh [])) sample_batch) []) true.

(** Two schedules of a server that starts with the empty store and a
    logger on an empty log, and what they leave. The first ends with two
    events in the buffer; the second serves no DELETE and ends with the
    buffer empty. *)
Definition sample_schedule : list Action :=
  [Serve (PUT (runes "a") (inl (runes "1"))); Turn WriteOK;
   Serve (PUT (runes "b") (inl (runes "2"))); Serve (DELETE (runes "a"));
   Serve (GET (runes "b"))].

Definition sample_store : Store := <[runes "b" := runes "2"]> ∅.

Definition sample_server : Writer :=
  mkWriter {| events := [WritePut (runes "b") (runes "2"); WriteDelete (runes "a")];
              errors := []; lastSequence := 1;
              file := Fprintf 1 EventPut (runes "a") (runes "1") |} true.

Definition sample_responses : list Response :=
  [{| status := 201; body := NoBody |}; {| status := 201; body := NoBody |};
   {| status := 200; body := NoBody |}; {| status := 200; body := Text (runes "2") |}].

Definition sample_put_schedule : list Action :=
  [Serve (PUT (runes "a") (inl (runes "1")));
   Serve (PUT (runes "b") (inl (runes "2"))); Turn WriteOK;
   Serve (GET (runes "a")); Serve (PUT (runes "a") (inl (runes "3")));
   Turn WriteOK; Turn WriteOK].

Definition sample_put_store : Store :=
  <[runes "a" := runes "3"]> (<[runes "b" := runes "2"]> ∅).

Definition sample_put_server : Writer :=
  mkWriter {| events := []; errors := []; lastSequence := 3;
              file := Fprintf 1 EventPut (runes "a") (runes "1")
                        ++ Fprintf 2 EventPut (runes "b") (runes "2")
                        ++ Fprintf 3 EventPut (runes "a") (runes "3") |} true.

Definition sample_put_responses : list Response :=
  [{| status := 201; body := NoBody |}; {| status := 201; body := NoBody |};
   {| status := 200; body := Text (runes "1") |};
   {| status := 201; body := NoBody |}].

(** Logs of one or two lines. *)
Definition sample_repeated_log : list rune :=
  Fprintf 1 EventPut (runes "a") (runes "b")
    ++ Fprintf 1 EventPut (runes "c") (runes "d").


Definition sample_zero_log : list rune :=
  Fprintf 0 EventPut (runes "a") (runes "b").

(** * Properties *)

(** ** The store *)

Section StoreProperties.

Implicit Types (data : Store) (key value : list rune) (ops : list Op).

Lemma apply_ops_app data ops1 ops2 :
  apply_ops data (ops1 ++ ops2) = apply_ops (apply_ops data ops1) ops2.
Proof. apply fold_left_app. Qed.

Lemma apply_ops_cons data op ops :
  apply_ops data (op :: ops) = apply_ops (apply_op data op) ops.
Proof. reflexivity. Qed.

Lemma apply_ops_untouched key ops : forall data,
  untouched key ops -> apply_ops data ops !! key = data !! key.
Proof.
  induction ops as [|op ops IH]; intros data Hun; [done|].
  inversion Hun as [|? ? Hop Hrest]; subst.
  rewrite apply_ops_cons, IH by assumption.
  destruct op as [k v|k]; cbn in *.
  - by rewrite lookup_insert_ne.
  - by rewrite lookup_delete_ne.
Qed.

Lemma apply_ops_never_put key ops : forall data,
  data !! key = None -> never_put key ops -> apply_ops data ops !! key = None.
Proof.
  induction ops as [|op ops IH]; intros data Hnone Hnp; [done|].
  inversion Hnp as [|? ? Hop Hrest]; subst.
  rewrite apply_ops_cons. apply IH; [|assumption].
  destruct op as [k v|k]; cbn.
  - rewrite lookup_insert_ne; [done|]. intros ->. by apply (Hop v).
  - destruct (decide (k = key)) as [->|Hne].
    + apply lookup_delete_eq.
    + by rewrite lookup_delete_ne.
Qed.

(** C7. After any sequence of Put and Delete on the empty store, [Get]
    of a key returns the value of the last Put of that key when no
    Delete of the key follows it, and the error [ErrorNoSuchKey] when
    the key was never Put or when its last mutation is a Delete. *)
Theorem get_reflects_last_mutation ops key :
  (forall pre value post,
      ops = pre ++ OpPut key value :: post -> untouched key post ->
      Get (apply_ops ∅ ops) key = (value, None)) /\
  (forall pre post,
      ops = pre ++ OpDelete key :: post -> untouched key post ->
      Get (apply_ops ∅ ops) key = ([], Some ErrorNoSuchKey)) /\
  (never_put key ops ->
      Get (apply_ops ∅ ops) key = ([], Some ErrorNoSuchKey)).
Proof.
  unfold Get. split; [|split].
  - intros pre value post -> Hun.
    rewrite apply_ops_app, apply_ops_cons, apply_ops_untouched by assumption.
    cbn. by rewrite lookup_insert_eq.
  - intros pre post -> Hun.
    rewrite apply_ops_app, apply_ops_cons, apply_ops_untouched by assumption.
    cbn. by rewrite lookup_delete_eq.
  - intros Hnp. by rewrite apply_ops_never_put.
Qed.

(** C8. [Delete] returns no error on any store and any key, and on a
    key that is absent it leaves the store as it was, the first time
    and the second time. *)
Theorem delete_absent_is_idempotent data key :
  (Delete data key).2 = None /\
  (data !! key = None ->
   (Delete data key).1 = data /\
   (Delete (Delete data key).1 key).2 = None /\
   (Delete (Delete data key).1 key).1 = data).
Proof.
  split; [done|]. intros Habsent. unfold Delete. cbn [fst snd].
  by rewrite !delete_id.
Qed.

End StoreProperties.

Example get_reflects_last_mutation_witness :
  Get (apply_ops ∅ [OpPut (runes "a") (runes "1"); OpPut (runes "b") (runes "2");
                    OpDelete (runes "a")]) (runes "b") = (runes "2", None).
Proof.
  apply (proj1 (get_reflects_last_mutation _ (runes "b"))
           [OpPut (runes "a") (runes "1")] (runes "2") [OpDelete (runes "a")]).
  - reflexivity.
  - repeat constructor. cbn. discriminate.
Defined.

Example delete_absent_is_idempotent_witness :
  (Delete (<[runes "b" := runes "2"]> ∅) (runes "a")).1 = <[runes "b" := runes "2"]> ∅.
Proof.
  apply (proj2 (delete_absent_is_idempotent (<[runes "b" := runes "2"]> ∅) (runes "a"))).
  vm_compute. reflexivity.
Defined.

(** ** The writer *)

Section WriterProperties.

Implicit Types (l : FileTransactionLogger) (s : Writer) (tr : list Label).

Lemma steps_app s tr1 s' tr2 s'' :
  steps s tr1 s' -> steps s' tr2 s'' -> steps s (tr1 ++ tr2) s''.
Proof.
  induction 1 as [|? ? ? ? ? Hstep _ IH]; intros H2; [done|].
  cbn. eapply steps_cons; eauto.
Qed.

Lemma write_all_spec es : forall l,
  write_all l es =
    {| events := events l; errors := errors l;
       lastSequence := fold_left (fun n _ => next_sequence n) es (lastSequence l);
       file := file l ++ records (lastSequence l) es |}.
Proof.
  induction es as [|e es IH]; intros l; cbn.
  - rewrite app_nil_r. by destruct l.
  - rewrite IH. cbn. by rewrite <- app_assoc.
Qed.

Lemma step_capacity s a s' :
  step s a s' ->
  (length (events (logger s)) <= events_capacity)%nat ->
  (length (events (logger s')) <= events_capacity)%nat.
Proof.
  destruct 1 as [l r e Hroom|l e q w Hq]; cbn; intros Hle.
  - rewrite length_app. cbn. lia.
  - rewrite Hq in Hle. cbn in Hle. destruct w; cbn; lia.
Qed.

Lemma steps_capacity s tr s' :
  steps s tr s' ->
  (length (events (logger s)) <= events_capacity)%nat ->
  (length (events (logger s')) <= events_capacity)%nat.
Proof. induction 1; eauto using step_capacity. Qed.

(** The channel is a queue: what went in is what came out followed by
    what is still buffered. *)
Lemma steps_fifo s tr s' :
  steps s tr s' ->
  events (logger s) ++ submitted tr = written tr ++ events (logger s').
Proof.
  induction 1 as [s|s a s1 tr s2 Hstep _ IH].
  - cbn. by rewrite app_nil_r.
  - destruct Hstep as [l r e Hroom|l e q w Hq]; cbn in *.
    + rewrite <- app_assoc in IH. exact IH.
    + rewrite Hq. destruct w; cbn in *; f_equal; exact IH.
Qed.

Lemma steps_write_all s tr s' :
  steps s tr s' -> forallb write_ok tr = true ->
  running s' = running s /\
  logger s' = with_events (write_all (logger s) (written tr)) (events (logger s')).
Proof.
  induction 1 as [s|s a s1 tr s2 Hstep _ IH]; intros Hok.
  - split; [done|]. by destruct s as [[] ?].
  - cbn in Hok. apply andb_prop in Hok as [Ha Hok].
    destruct (IH Hok) as [IHr IHl]. rewrite IHr.
    destruct Hstep as [l r e Hroom|l e q w Hq]; cbn in *.
    + split; [done|]. rewrite IHl at 1. by rewrite !write_all_spec.
    + destruct w; [|discriminate]. cbn in *. split; [done|].
      rewrite IHl at 1. by rewrite !write_all_spec.
Qed.

(** Once the goroutine has returned, only sends happen and the logger
    keeps its file and its error. *)
Lemma steps_stopped s tr s' :
  steps s tr s' -> running s = false ->
  running s' = false /\ written tr = [] /\
  file (logger s') = file (logger s) /\
  errors (logger s') = errors (logger s) /\
  lastSequence (logger s') = lastSequence (logger s).
Proof.
  induction 1 as [s|s a s1 tr s2 Hstep _ IH]; intros Hstop; [done|].
  destruct Hstep as [l r e Hroom|l e q w Hq]; cbn in *; [|discriminate].
  destruct (IH Hstop) as (? & ? & ? & ? & ?). done.
Qed.

(** While the goroutine runs nothing has been sent on [errors], so its
    one send finds room in the buffer ([errors_capacity] is 1). *)
Lemma steps_running_no_error s tr s' :
  steps s tr s' -> errors (logger s) = [] ->
  running s' = true -> errors (logger s') = [].
Proof.
  induction 1 as [s|s a s1 tr s2 Hstep Hrest IH]; intros Hnone Hrun; [done|].
  destruct Hstep as [l r e Hroom|l e q w Hq]; cbn in *.
  - by apply IH.
  - destruct w; cbn in *; [by apply IH|].
    apply steps_stopped in Hrest as (Hstop & _); [|done]. congruence.
Qed.

Lemma steps_errors_capacity s tr s' :
  steps s tr s' -> errors (logger s) = [] ->
  (length (errors (logger s')) <= errors_capacity)%nat.
Proof.
  induction 1 as [s|s a s1 tr s2 Hstep Hrest IH]; intros Hnone.
  - rewrite Hnone. cbn. unfold errors_capacity. lia.
  - destruct Hstep as [l r e Hroom|l e q w Hq]; cbn in *.
    + by apply IH.
    + destruct w; cbn in *; [by apply IH|].
      apply steps_stopped in Hrest as (_ & _ & _ & -> & _); [|done].
      cbn. rewrite Hnone. cbn. unfold errors_capacity. lia.
Qed.

(** When every write has succeeded and the buffer is empty, the log has
    gained the records of everything submitted, in that order. *)
Lemma drained_log l tr s :
  steps (mkWriter (Run l) true) tr s ->
  forallb write_ok tr = true ->
  events (logger s) = [] ->
  file (logger s) = file l ++ records (lastSequence l) (submitted tr).
Proof.
  intros Hsteps Hok Hempty.
  pose proof (steps_fifo _ _ _ Hsteps) as Hfifo. cbn in Hfifo.
  rewrite Hempty, app_nil_r in Hfifo. rewrite Hfifo.
  apply steps_write_all in Hsteps as [_ ->]; [|done].
  by rewrite write_all_spec.
Qed.

(** C6. When a write of the goroutine fails, the error is what [Err()]
    holds from then on, the goroutine has returned, and whatever is
    submitted afterwards, no event is written any more: the file stays
    as the failed write left it, so the write is not tried again. *)
Theorem failed_write_stops_writer l tr1 s e n err s' tr2 s'' :
  steps (mkWriter (Run l) true) tr1 s ->
  step s (Drain e (WriteFailed n err)) s' ->
  steps s' tr2 s'' ->
  Err (logger s') = [err] /\ running s' = false /\
  Err (logger s'') = [err] /\ running s'' = false /\
  written tr2 = [] /\
  file (logger s'') = file (logger s') /\
  file (logger s') =
    file (logger s)
      ++ take n (Fprintf (next_sequence (lastSequence (logger s)))
                   (EventType e) (Key e) (Value e)).
Proof.
  intros Hbefore Hfail Hafter.
  inversion Hfail as [|l0 e0 q w Hq]; subst.
  assert (errors l0 = []) as Hnone
    by (eapply steps_running_no_error in Hbefore; eauto).
  cbn in *. rewrite Hnone in *. cbn in *.
  apply steps_stopped in Hafter as (Hstop & Hw & Hf & He & _); [|done].
  cbn in *. unfold Err. rewrite He, Hf. done.
Qed.

(** Sends complete one after the other while the buffer has room. *)
Lemma steps_submits es : forall l r,
  (length (events l) + length es <= events_capacity)%nat ->
  steps (mkWriter l r) (map Submit es)
        (mkWriter (with_events l (events l ++ es)) r).
Proof.
  induction es as [|e es IH]; intros l r Hroom.
  - rewrite app_nil_r. destruct l. apply steps_nil.
  - cbn [map length] in *. eapply steps_cons.
    + apply step_submit. lia.
    + specialize (IH (with_events l (events l ++ [e])) r).
      cbn [events with_events errors lastSequence file] in IH.
      rewrite <- app_assoc in IH. apply IH. rewrite length_app. cbn. lia.
Qed.

(** The goroutine writes what is buffered, oldest first. *)
Lemma steps_drains es : forall l,
  events l = es ->
  steps (mkWriter l true) (map (fun e => Drain e WriteOK) es)
        (mkWriter (with_events (write_all l es) []) true).
Proof.
  induction es as [|e q IH]; intros l Hl.
  - destruct l. cbn in *. subst. apply steps_nil.
  - cbn [map]. eapply steps_cons; [by apply step_drain|].
    specialize (IH (write_event (with_events l q) e WriteOK).1 eq_refl).
    cbn [write_all]. rewrite write_all_spec in IH. rewrite write_all_spec.
    cbn in IH |- *. exact IH.
Qed.

Lemma records_log_text es : forall from, records from es = log_text from es.
Proof.
  induction es as [|e es IH]; intros from; [done|].
  cbn [records log_text]. rewrite IH. unfold Fprintf.
  repeat (rewrite <- ?app_assoc; cbn [app]; f_equal).
Qed.

(** C9. The buffer of [l.events] holds exactly up to 16 events: it never
    holds more; while it holds fewer than 16 a send completes and puts its
    event behind the ones buffered, so that as many sends as there is room
    for complete without a turn of the goroutine; when it holds 16, no
    send completes, so the caller waits and nothing is dropped. The events
    written and the events still buffered are, in this order, the events
    submitted; and when every write has succeeded and the buffer is empty,
    the log has gained, in the order of submission, one line for each
    submitted event: its sequence number and its kind in decimal, its key
    and its value, separated by tabs and ended by a newline. *)
Theorem bounded_queue_backpressure l tr s :
  steps (mkWriter (Run l) true) tr s ->
  (length (events (logger s)) <= 16)%nat /\
  ((length (events (logger s)) < 16)%nat ->
     forall e, step s (Submit e)
                 (mkWriter (with_events (logger s) (events (logger s) ++ [e]))
                           (running s))) /\
  (forall es, (length (events (logger s)) + length es <= 16)%nat ->
     steps s (map Submit es)
       (mkWriter (with_events (logger s) (events (logger s) ++ es)) (running s))) /\
  ((length (events (logger s)) = 16)%nat ->
     forall e s', ~ step s (Submit e) s') /\
  submitted tr = written tr ++ events (logger s) /\
  (forallb write_ok tr = true -> events (logger s) = [] ->
     file (logger s) = file l ++ log_text (lastSequence l) (submitted tr)).
Proof.
  intros Hsteps. repeat split.
  - apply steps_capacity in Hsteps; cbn in *; [done|]. unfold events_capacity. lia.
  - intros Hroom e. destruct s as [ls rs]. by apply step_submit.
  - intros es Hroom. destruct s as [ls rs]. by apply steps_submits.
  - intros Hfull e s' Hstep. inversion Hstep; subst. cbn in *.
    unfold events_capacity in *. lia.
  - by apply steps_fifo in Hsteps.
  - intros Hok Hempty. rewrite <- records_log_text. by apply drained_log.
Qed.

End WriterProperties.

(** ** Numerals *)

Ltac N_cases :=
  repeat match goal with
    | |- context [?a <? ?b] => destruct (N.ltb_spec a b)
    | |- context [?a <=? ?b] => destruct (N.leb_spec a b)
    | |- context [?a =? ?b] => destruct (N.eqb_spec a b)
    end; cbn; try done; try lia.

Section Numerals.

Lemma isDigit_bounds r : isDigit r = true <-> 48 <= r <= 57.
Proof. unfold isDigit. N_cases. Qed.

Lemma isDigit_not_space r : isDigit r = true -> isSpace r = false.
Proof.
  intros [? ?]%isDigit_bounds. unfold isSpace, space, in_ranges. N_cases.
Qed.

Lemma isDigit_utf8_len r : isDigit r = true -> utf8_len r = 1.
Proof. intros [? ?]%isDigit_bounds. unfold utf8_len. N_cases. Qed.

Lemma format_digits_app fuel : forall n acc,
  format_digits fuel n acc = format_digits fuel n [] ++ acc.
Proof.
  induction fuel as [|fuel IH]; intros n acc; [done|]. cbn.
  destruct (n / 10 =? 0); [done|].
  rewrite (IH _ (_ :: acc)), (IH _ [_]), <- app_assoc. done.
Qed.

Lemma format_digits_isDigit fuel : forall n acc,
  Forall (fun r => isDigit r = true) acc ->
  Forall (fun r => isDigit r = true) (format_digits fuel n acc).
Proof.
  induction fuel as [|fuel IH]; intros n acc Hacc; [done|]. cbn.
  assert (isDigit (48 + n mod 10) = true) as Hd.
  { apply isDigit_bounds. pose proof (N.mod_lt n 10 ltac:(lia)).
    set (m := n mod 10) in *. clearbody m. lia. }
  destruct (n / 10 =? 0); [by constructor|]. apply IH. by constructor.
Qed.

Lemma format_digits_length fuel : forall n acc,
  (length (format_digits fuel n acc) <= fuel + length acc)%nat.
Proof.
  induction fuel as [|fuel IH]; intros n acc; [done|]. cbn.
  destruct (n / 10 =? 0); cbn; [lia|].
  etrans; [apply IH|]. cbn. lia.
Qed.

Lemma format_digits_nonempty fuel n : format_digits (S fuel) n [] <> [].
Proof.
  cbn. destruct (n / 10 =? 0); [done|].
  rewrite format_digits_app. by destruct (format_digits fuel (n / 10) []).
Qed.

Lemma digits_value_app acc xs ys :
  digits_value acc (xs ++ ys) = digits_value (digits_value acc xs) ys.
Proof. apply fold_left_app. Qed.

Lemma format_digits_value fuel : forall n,
  n < 10 ^ N.of_nat fuel -> digits_value 0 (format_digits fuel n []) = n.
Proof.
  induction fuel as [|fuel IH]; intros n Hn.
  - cbn in *. lia.
  - cbn [format_digits]. rewrite Nat2N.inj_succ, N.pow_succ_r' in Hn.
    pose proof (N.div_mod n 10 ltac:(lia)) as Hdm.
    pose proof (N.mod_lt n 10 ltac:(lia)) as Hm.
    destruct (N.eqb_spec (n / 10) 0) as [Hz|Hnz].
    + unfold digits_value. cbn.
      set (q := n / 10) in *. set (m := n mod 10) in *. clearbody q m. lia.
    + rewrite format_digits_app, digits_value_app, IH.
      * unfold digits_value. cbn.
        set (q := n / 10) in *. set (m := n mod 10) in *. clearbody q m. lia.
      * apply N.Div0.div_lt_upper_bound. lia.
Qed.

Lemma FormatUint_isDigit n : Forall (fun r => isDigit r = true) (FormatUint n).
Proof. by apply format_digits_isDigit. Qed.

Lemma FormatUint_nonempty n : FormatUint n <> [].
Proof. apply format_digits_nonempty. Qed.

Lemma FormatUint_length n : (length (FormatUint n) <= 20)%nat.
Proof. etrans; [apply format_digits_length|]. cbn. lia. Qed.

(** Printing and parsing a [uint64] are inverse. *)
Lemma ParseUint_FormatUint n :
  n < uint64_limit -> ParseUint (FormatUint n) = Some n.
Proof.
  intros Hn. unfold ParseUint, FormatUint.
  rewrite format_digits_value.
  - destruct (N.ltb_spec n uint64_limit); [done|lia].
  - unfold uint64_limit in Hn. cbn in *. lia.
Qed.

Lemma byte_len_app xs ys : byte_len (xs ++ ys) = byte_len xs + byte_len ys.
Proof.
  unfold byte_len. induction xs as [|x xs IH]; [done|].
  cbn [app foldr]. rewrite IH. lia.
Qed.

Lemma byte_len_digits xs :
  Forall (fun r => isDigit r = true) xs -> byte_len xs = N.of_nat (length xs).
Proof.
  induction 1 as [|x xs Hx _ IH]; [done|].
  unfold byte_len in *. cbn [foldr length].
  rewrite IH, isDigit_utf8_len by done. lia.
Qed.

Lemma byte_len_FormatUint n : byte_len (FormatUint n) <= 20.
Proof.
  rewrite byte_len_digits by apply FormatUint_isDigit.
  pose proof (FormatUint_length n). lia.
Qed.

End Numerals.

(** ** Scanning one record *)

Section ScanRecord.

Implicit Types (s rest tok : list rune) (r : rune).

Lemma isSpace_TAB : isSpace TAB = true.
Proof. reflexivity. Qed.

Lemma isSpace_NL : isSpace NL = true.
Proof. reflexivity. Qed.

Lemma isSpace_CR : isSpace CR = true.
Proof. reflexivity. Qed.

Lemma not_space_not_NL r : isSpace r = false -> (r =? NL) = false.
Proof.
  intros Hr. destruct (N.eqb_spec r NL) as [->|]; [|done].
  by rewrite isSpace_NL in Hr.
Qed.

Lemma SkipSpace_at_rune r s : isSpace r = false -> SkipSpace (r :: s) = inl (r :: s).
Proof. intros Hr. cbn. by rewrite (not_space_not_NL r Hr), Hr. Qed.

Lemma accept_digits_app tok rest :
  Forall (fun r => isDigit r = true) tok ->
  match rest with [] => True | r :: _ => isDigit r = false end ->
  accept_digits (tok ++ rest) = (tok, rest).
Proof.
  intros Htok Hrest. induction Htok as [|d tok Hd _ IH]; cbn.
  - destruct rest as [|r rest]; [done|]. cbn. by rewrite Hrest.
  - by rewrite Hd, IH.
Qed.

Lemma token_app tok rest :
  Forall (fun r => isSpace r = false) tok ->
  match rest with [] => True | r :: _ => isSpace r = true end ->
  token (tok ++ rest) = (tok, rest).
Proof.
  intros Htok Hrest. induction Htok as [|d tok Hd _ IH]; cbn.
  - destruct rest as [|r rest]; [done|]. cbn. by rewrite Hrest.
  - by rewrite Hd, IH.
Qed.

Lemma scanUint_numeral bitSize tok n rest :
  tok <> [] -> Forall (fun r => isDigit r = true) tok ->
  ParseUint tok = Some n -> n < 2 ^ bitSize ->
  scanUint bitSize (tok ++ TAB :: rest) = inl (n, TAB :: rest).
Proof.
  intros Hne Htok Hparse Hn. unfold scanUint.
  destruct tok as [|d tok]; [done|].
  pose proof (Forall_inv Htok) as Hd. cbn beta in Hd.
  change ((d :: tok) ++ TAB :: rest) with (d :: (tok ++ TAB :: rest)).
  rewrite SkipSpace_at_rune by by apply isDigit_not_space.
  cbn [bind].
  change (d :: (tok ++ TAB :: rest)) with ((d :: tok) ++ TAB :: rest).
  rewrite accept_digits_app by done.
  rewrite Hparse. by destruct (N.ltb_spec n (2 ^ bitSize)); [|lia].
Qed.

Lemma advance_tab_at_rune r s :
  isSpace r = false -> advance_tab (TAB :: r :: s) = inl (r :: s).
Proof. intros Hr. cbn. by rewrite Hr. Qed.

Lemma convertString_clean tok rest :
  clean tok ->
  match rest with [] => True | r :: _ => isSpace r = true end ->
  convertString (tok ++ rest) = inl (tok, rest).
Proof.
  intros [Hne Htok] Hrest. unfold convertString.
  destruct tok as [|d tok]; [done|].
  pose proof (Forall_inv Htok) as Hd. cbn beta in Hd.
  change ((d :: tok) ++ rest) with (d :: (tok ++ rest)).
  rewrite SkipSpace_at_rune by done. cbn [bind].
  change (d :: (tok ++ rest)) with ((d :: tok) ++ rest).
  by rewrite token_app.
Qed.

(** [Sscanf] reads back the four fields of a record made of two numerals
    and two clean strings. *)
Lemma Sscanf_record sequence eventType key value :
  sequence < uint64_limit -> eventType < 256 -> clean key -> clean value ->
  Sscanf (FormatUint sequence ++ TAB :: FormatUint eventType ++ TAB ::
            key ++ TAB :: value)
  = inl {| Sequence := sequence; EventType := eventType;
           Key := key; Value := value |}.
Proof.
  intros Hseq Hty Hkey Hvalue. unfold Sscanf.
  pose proof (FormatUint_nonempty sequence) as Hne1.
  pose proof (FormatUint_isDigit sequence) as Hd1.
  pose proof (FormatUint_nonempty eventType) as Hne2.
  pose proof (FormatUint_isDigit eventType) as Hd2.
  assert (eventType < uint64_limit) as Hty64 by (unfold uint64_limit; cbn; lia).
  pose proof (ParseUint_FormatUint _ Hseq) as Hp1.
  pose proof (ParseUint_FormatUint _ Hty64) as Hp2.
  destruct (FormatUint sequence) as [|d1 ds1] eqn:E1; [done|].
  destruct (FormatUint eventType) as [|d2 ds2] eqn:E2; [done|].
  destruct Hkey as [Hkne Hk]. destruct key as [|k1 key]; [done|].
  destruct Hvalue as [Hvne Hv]. destruct value as [|v1 value]; [done|].
  pose proof (Forall_inv Hd1) as Hd1h. pose proof (Forall_inv Hd2) as Hd2h.
  pose proof (Forall_inv Hk) as Hkh. pose proof (Forall_inv Hv) as Hvh.
  cbn beta in *.
  change ((d1 :: ds1) ++ ?x) with (d1 :: (ds1 ++ x)).
  rewrite SkipSpace_at_rune by by apply isDigit_not_space. cbn [bind].
  change (d1 :: (ds1 ++ ?x)) with ((d1 :: ds1) ++ x).
  rewrite (scanUint_numeral 64 _ sequence) by done. cbn [bind].
  change ((d2 :: ds2) ++ ?x) with (d2 :: (ds2 ++ x)).
  rewrite advance_tab_at_rune by by apply isDigit_not_space. cbn [bind].
  rewrite SkipSpace_at_rune by by apply isDigit_not_space. cbn [bind].
  change (d2 :: (ds2 ++ ?x)) with ((d2 :: ds2) ++ x).
  rewrite (scanUint_numeral 8 _ eventType) by done. cbn [bind].
  change ((k1 :: key) ++ ?x) with (k1 :: (key ++ x)).
  rewrite advance_tab_at_rune by done. cbn [bind].
  rewrite SkipSpace_at_rune by done. cbn [bind].
  change (k1 :: (key ++ ?x)) with ((k1 :: key) ++ x).
  rewrite convertString_clean by done. cbn [bind].
  rewrite advance_tab_at_rune by done. cbn [bind].
  rewrite SkipSpace_at_rune by done. cbn [bind].
  rewrite <- (app_nil_r (v1 :: value)) at 1.
  rewrite convertString_clean by done. done.
Qed.

End ScanRecord.

(** ** Scanning the lines of a log *)

Section ScanLines.

Implicit Types (cur data rest line : list rune).

Lemma scan_from_line line : forall cur rest,
  Forall (fun r => r <> NL) line ->
  scan_from cur (line ++ NL :: rest) =
    if too_long (cur ++ line) then ([], true)
    else (dropCR (cur ++ line) :: (scan_from [] rest).1, (scan_from [] rest).2).
Proof.
  induction line as [|r line IH]; intros cur rest Hline.
  - cbn [app scan_from]. rewrite N.eqb_refl, app_nil_r.
    by destruct (too_long cur), (scan_from [] rest).
  - inversion Hline as [|? ? Hr Hrest]; subst. cbn [app scan_from].
    destruct (N.eqb_spec r NL) as [|_]; [done|].
    rewrite IH by done. by rewrite <- app_assoc.
Qed.

(** Behind a log that ends with a newline the scanner starts afresh. *)
Lemma scan_from_terminated data : forall cur rest,
  scan_from cur (data ++ NL :: rest) =
    match scan_from cur (data ++ [NL]) with
    | (ls, false) => (ls ++ (scan_from [] rest).1, (scan_from [] rest).2)
    | (ls, true) => (ls, true)
    end.
Proof.
  induction data as [|r data IH]; intros cur rest; cbn [app scan_from].
  - rewrite N.eqb_refl. destruct (too_long cur); [done|].
    by destruct (scan_from [] rest).
  - destruct (N.eqb_spec r NL) as [_|_]; [|apply IH].
    destruct (too_long cur); [done|]. rewrite IH.
    by destruct (scan_from [] (data ++ [NL])) as [ls [|]].
Qed.

Lemma Fprintf_record_line sequence eventType key value :
  Fprintf sequence eventType key value
  = record_line sequence eventType key value ++ [NL].
Proof.
  unfold Fprintf, record_line.
  repeat (rewrite <- ?app_assoc; cbn [app]; f_equal).
Qed.

Lemma clean_no_NL s : clean s -> Forall (fun r => r <> NL) s.
Proof.
  intros [_ Hs]. eapply Forall_impl; [exact Hs|].
  intros r Hr ->. by rewrite isSpace_NL in Hr.
Qed.

Lemma digits_no_NL s :
  Forall (fun r => isDigit r = true) s -> Forall (fun r => r <> NL) s.
Proof.
  intros Hs. eapply Forall_impl; [exact Hs|]. by intros r Hr ->.
Qed.

Lemma record_line_no_NL sequence eventType key value :
  clean key -> clean value ->
  Forall (fun r => r <> NL) (record_line sequence eventType key value).
Proof.
  intros Hk Hv. unfold record_line.
  repeat first [ apply Forall_app; split | apply Forall_cons; split ];
    try done; auto using clean_no_NL, digits_no_NL, FormatUint_isDigit.
Qed.

Lemma record_line_byte_len sequence eventType key value :
  byte_len (record_line sequence eventType key value)
  <= byte_len key + byte_len value + 43.
Proof.
  unfold record_line.
  repeat first [ rewrite byte_len_app
               | match goal with
                 | |- context [byte_len (?r :: ?s)] =>
                     change (byte_len (r :: s)) with (utf8_len r + byte_len s)
                 end ].
  pose proof (byte_len_FormatUint sequence).
  pose proof (byte_len_FormatUint eventType).
  change (utf8_len TAB) with 1. lia.
Qed.

Lemma record_line_dropCR sequence eventType key value :
  clean value ->
  dropCR (record_line sequence eventType key value)
  = record_line sequence eventType key value.
Proof.
  intros [Hne Hv].
  destruct (exists_last Hne) as (value' & r & ->).
  assert (record_line sequence eventType key (value' ++ [r])
          = record_line sequence eventType key value' ++ [r]) as ->.
  { unfold record_line. repeat (rewrite <- ?app_assoc; cbn [app]; f_equal). }
  unfold dropCR. rewrite last_snoc.
  destruct (N.eqb_spec r CR) as [->|]; [|done].
  apply Forall_app in Hv as [_ Hcr]. apply Forall_inv in Hcr.
  by rewrite isSpace_CR in Hcr.
Qed.

Lemma next_sequence_succ n : n + 1 < uint64_limit -> next_sequence n = n + 1.
Proof. intros Hn. unfold next_sequence. by apply N.mod_small. Qed.

(** The scanner returns the records of readable events line by line and
    goes on with what follows them. *)
Lemma scan_from_records_then es : forall from rest,
  Forall readable (sequenced from es) ->
  from + N.of_nat (length es) < uint64_limit ->
  scan_from [] (records from es ++ rest)
  = (record_lines from es ++ (scan_from [] rest).1, (scan_from [] rest).2).
Proof.
  induction es as [|e es IH]; intros from rest Hes Hlen.
  - cbn. by destruct (scan_from [] rest).
  - cbn [sequenced] in Hes.
    inversion Hes as [|? ? (Hty & Hk & Hv & Hfit) Hrest]; subst.
    unfold print_event in Hfit. cbn [Sequence EventType Key Value] in *.
    cbn [length] in Hlen. cbn [records record_lines].
    rewrite next_sequence_succ by lia.
    rewrite Fprintf_record_line, <- !app_assoc. cbn [app].
    rewrite scan_from_line by by apply record_line_no_NL.
    cbn [app]. rewrite IH by (done || lia). cbn [fst snd].
    rewrite record_line_dropCR by done.
    rewrite Fprintf_record_line, byte_len_app in Hfit.
    change (byte_len [NL]) with 1 in Hfit. unfold too_long.
    destruct (N.leb_spec MaxScanTokenSize
                (byte_len (record_line (from + 1) (EventType e) (Key e) (Value e))));
      [lia|done].
Qed.

Lemma scan_from_records es from :
  Forall readable (sequenced from es) ->
  from + N.of_nat (length es) < uint64_limit ->
  scan_from [] (records from es) = (record_lines from es, false).
Proof.
  intros Hes Hlen. rewrite <- (app_nil_r (records from es)).
  rewrite scan_from_records_then by done. cbn. by rewrite app_nil_r.
Qed.

(** The lines of a log that ends with a newline (or is empty) followed
    by new records are the old lines followed by the new ones. *)
Lemma scan_lines_append old ls es from :
  old = [] \/ last old = Some NL ->
  scan_lines old = (ls, false) ->
  Forall readable (sequenced from es) ->
  from + N.of_nat (length es) < uint64_limit ->
  scan_lines (old ++ records from es) = (ls ++ record_lines from es, false).
Proof.
  unfold scan_lines. intros Hold Hscan Hes Hlen.
  destruct Hold as [->|[g ->]%last_Some].
  - cbn in Hscan. injection Hscan as <-. cbn [app]. by apply scan_from_records.
  - rewrite <- app_assoc. cbn [app].
    rewrite scan_from_terminated, Hscan, scan_from_records by done. done.
Qed.

End ScanLines.

(** ** Replay *)

Section Replay.

Implicit Types (l : FileTransactionLogger) (sent : list Signal)
  (lines : list (list rune)) (es evs : list Event).

Lemma sent_errors_events evs : sent_errors (map OutEvent evs) = [].
Proof. induction evs; [done|]. cbn. done. Qed.

Lemma sent_events_events evs : sent_events (map OutEvent evs) = evs.
Proof. induction evs as [|e evs IH]; [done|]. cbn. by f_equal. Qed.

Lemma sent_clean sent :
  sent_errors sent = [] -> sent = map OutEvent (sent_events sent).
Proof.
  induction sent as [|[e|err] sent IH]; cbn; intros Hclean; [done| |done].
  f_equal. by apply IH.
Qed.

Lemma sent_events_app sent1 sent2 :
  sent_events (sent1 ++ sent2) = sent_events sent1 ++ sent_events sent2.
Proof. apply omap_app. Qed.

Lemma sent_errors_app sent1 sent2 :
  sent_errors (sent1 ++ sent2) = sent_errors sent1 ++ sent_errors sent2.
Proof. apply omap_app. Qed.

Lemma ReadEvents_sent l :
  (ReadEvents l).1
  = (read_loop (lastSequence l) (scan_lines (file l)).1 (scan_lines (file l)).2).1.
Proof.
  unfold ReadEvents. destruct (scan_lines (file l)) as [lines tooLong].
  cbn [fst snd]. by destruct (read_loop (lastSequence l) lines tooLong).
Qed.

Lemma ReadEvents_logger l :
  (ReadEvents l).2
  = {| events := events l; errors := errors l;
       lastSequence :=
         (read_loop (lastSequence l) (scan_lines (file l)).1 (scan_lines (file l)).2).2;
       file := file l |}.
Proof.
  unfold ReadEvents. destruct (scan_lines (file l)) as [lines tooLong].
  cbn [fst snd]. by destruct (read_loop (lastSequence l) lines tooLong).
Qed.

(** A stream without an error comes from a scan without an error. *)
Lemma read_loop_clean_scan lines : forall from tooLong,
  sent_errors (read_loop from lines tooLong).1 = [] -> tooLong = false.
Proof.
  induction lines as [|line lines IH]; intros from tooLong; cbn.
  - by destruct tooLong.
  - destruct (Sscanf line) as [e|err]; [|done].
    destruct (Sequence e <=? from); [done|].
    specialize (IH (Sequence e) tooLong).
    destruct (read_loop (Sequence e) lines tooLong). cbn in *. apply IH.
Qed.

(** Replay of a log that goes on: as long as the first part sends no
    error, the second part is replayed from where the first ended. *)
Lemma read_loop_app lines1 : forall from lines2 tooLong,
  read_loop from (lines1 ++ lines2) tooLong =
    let (sent1, from1) := read_loop from lines1 false in
    match sent_errors sent1 with
    | [] => (sent1 ++ (read_loop from1 lines2 tooLong).1,
             (read_loop from1 lines2 tooLong).2)
    | _ => (sent1, from1)
    end.
Proof.
  induction lines1 as [|line lines1 IH]; intros from lines2 tooLong.
  - cbn. by destruct (read_loop from lines2 tooLong).
  - cbn [app read_loop]. destruct (Sscanf line) as [e|err]; [|done].
    destruct (Sequence e <=? from); [done|].
    rewrite IH. destruct (read_loop (Sequence e) lines1 false) as [sent1 from1].
    change (sent_errors (OutEvent e :: sent1)) with (sent_errors sent1).
    by destruct (sent_errors sent1).
Qed.

(** The records of readable events are read back as they were written. *)
Lemma read_loop_records es : forall from,
  Forall readable (sequenced from es) ->
  from + N.of_nat (length es) < uint64_limit ->
  read_loop from (record_lines from es) false
  = (map OutEvent (sequenced from es), from + N.of_nat (length es)).
Proof.
  induction es as [|e es IH]; intros from Hes Hlen.
  - cbn. f_equal. lia.
  - cbn [sequenced] in Hes.
    inversion Hes as [|? ? (Hty & Hk & Hv & _) Hrest]; subst.
    cbn [Sequence EventType Key Value] in *.
    cbn [length] in Hlen. cbn [record_lines read_loop sequenced map].
    rewrite next_sequence_succ by lia.
    unfold record_line. rewrite Sscanf_record by (done || lia).
    cbn [Sequence EventType Key Value].
    destruct (N.leb_spec (from + 1) from) as [|_]; [lia|].
    fold (record_line (from + 1) (EventType e) (Key e) (Value e)).
    rewrite IH by (done || lia). cbn [length]. f_equal. lia.
Qed.

Lemma records_sequenced es : forall from,
  from + N.of_nat (length es) < uint64_limit ->
  records from es = flat_map print_event (sequenced from es).
Proof.
  induction es as [|e es IH]; intros from Hlen; [done|].
  cbn [length] in Hlen. cbn [records sequenced flat_map].
  rewrite next_sequence_succ by lia. rewrite IH by lia. done.
Qed.

End Replay.

(** ** Writing, then replaying *)

Section RoundTrip.

Implicit Types (l : FileTransactionLogger) (s : Writer) (tr : list Label)
  (evs : list Event).

(** What a replay without error tells about the log and the logger. *)
Lemma ReadEvents_clean content sent l :
  ReadEvents (fresh content) = (sent, l) -> sent_errors sent = [] ->
  exists lines,
    scan_lines content = (lines, false) /\
    read_loop 0 lines false = (sent, lastSequence l) /\
    file l = content.
Proof.
  intros Hread Hclean.
  pose proof (ReadEvents_sent (fresh content)) as Hsent.
  pose proof (ReadEvents_logger (fresh content)) as Hlog.
  rewrite Hread in Hsent, Hlog. cbn [fst snd fresh lastSequence file] in *.
  destruct (scan_lines content) as [lines tooLong]. cbn [fst snd] in *.
  rewrite Hsent in Hclean.
  apply read_loop_clean_scan in Hclean as ->.
  exists lines. rewrite Hlog. cbn. split; [done|]. split; [|done].
  rewrite Hsent. by destruct (read_loop 0 lines false).
Qed.

(** What a log replays as once readable events have been written behind
    it. *)
Lemma replay_after_append old l evs es :
  old = [] \/ last old = Some NL ->
  ReadEvents (fresh old) = (map OutEvent evs, l) ->
  Forall readable (sequenced (lastSequence l) es) ->
  lastSequence l + N.of_nat (length es) < uint64_limit ->
  (ReadEvents (fresh (old ++ records (lastSequence l) es))).1
  = map OutEvent (evs ++ sequenced (lastSequence l) es).
Proof.
  intros Hold Hread Hes Hlen.
  destruct (ReadEvents_clean _ _ _ Hread (sent_errors_events evs))
    as (lines & Hscan & Hloop & Hfile).
  rewrite ReadEvents_sent. cbn [fresh file lastSequence].
  rewrite (scan_lines_append old lines _ _ Hold Hscan Hes Hlen). cbn [fst snd].
  rewrite read_loop_app, Hloop, sent_errors_events.
  rewrite read_loop_records by done. cbn [fst].
  by rewrite map_app.
Qed.

(** C1, amended. Let a log be empty or end with a newline and replay
    without error, delivering [evs] and leaving [S] as last sequence
    number. When N events are then submitted and all are written, where
    each event, numbered as it is written, has a kind below 256, a key
    and a value that are not empty and hold no white space and a record
    that, newline included, is not longer than the scanner's buffer of
    65536 bytes, and where [S + N] is below 2^64, then replay of the log
    delivers [evs] followed by exactly the N events, in the order of
    submission, numbered [S+1 .. S+N], with the kind, key and value
    submitted. (Strings are the runes of valid UTF-8 text.) *)
Theorem log_roundtrip old l evs tr s :
  old = [] \/ last old = Some NL ->
  ReadEvents (fresh old) = (map OutEvent evs, l) ->
  steps (mkWriter (Run l) true) tr s ->
  forallb write_ok tr = true ->
  events (logger s) = [] ->
  Forall readable (sequenced (lastSequence l) (submitted tr)) ->
  lastSequence l + N.of_nat (length (submitted tr)) < uint64_limit ->
  (ReadEvents (fresh (file (logger s)))).1
  = map OutEvent (evs ++ sequenced (lastSequence l) (submitted tr)).
Proof.
  intros Hold Hread Hsteps Hok Hempty Hes Hlen.
  destruct (ReadEvents_clean _ _ _ Hread (sent_errors_events evs))
    as (lines & Hscan & Hloop & Hfile).
  rewrite (drained_log _ _ _ Hsteps Hok Hempty), Hfile.
  by apply replay_after_append.
Qed.

(** The claim as worded fails for a key that holds a space: the record of
    Put("a b", "c") is read back as key "a" and value "b". *)
Lemma roundtrip_fails_on_space :
  ~ roundtrip_on_empty_log [WritePut (runes "a b") (runes "c")].
Proof.
  intros Hclaim.
  eassert (steps (mkWriter (Run (fresh [])) true)
             [Submit (WritePut (runes "a b") (runes "c"));
              Drain (WritePut (runes "a b") (runes "c")) WriteOK] _) as Hsteps.
  { eapply steps_cons; [apply step_submit; cbn; unfold events_capacity; lia|].
    eapply steps_cons; [by eapply step_drain|]. apply steps_nil. }
  unfold roundtrip_on_empty_log, delimiter_free in Hclaim.
  specialize (Hclaim ltac:(cbn; repeat constructor; by vm_compute)
                _ _ Hsteps eq_refl eq_refl eq_refl).
  vm_compute in Hclaim. discriminate Hclaim.
Qed.

(** A record with an empty value ends with its third tab, so the
    replayer finds no fourth value on the line. Every Delete is written
    with an empty value. *)
Lemma Sscanf_empty_value sequence eventType key :
  sequence < uint64_limit -> eventType < 256 -> clean key ->
  Sscanf (record_line sequence eventType key []) = inr UnexpectedEOF.
Proof.
  intros Hseq Hty Hkey. unfold Sscanf, record_line.
  pose proof (FormatUint_nonempty sequence) as Hne1.
  pose proof (FormatUint_isDigit sequence) as Hd1.
  pose proof (FormatUint_nonempty eventType) as Hne2.
  pose proof (FormatUint_isDigit eventType) as Hd2.
  assert (eventType < uint64_limit) as Hty64 by (unfold uint64_limit; cbn; lia).
  pose proof (ParseUint_FormatUint _ Hseq) as Hp1.
  pose proof (ParseUint_FormatUint _ Hty64) as Hp2.
  destruct (FormatUint sequence) as [|d1 ds1] eqn:E1; [done|].
  destruct (FormatUint eventType) as [|d2 ds2] eqn:E2; [done|].
  destruct Hkey as [Hkne Hk]. destruct key as [|k1 key]; [done|].
  pose proof (Forall_inv Hd1) as Hd1h. pose proof (Forall_inv Hd2) as Hd2h.
  pose proof (Forall_inv Hk) as Hkh. cbn beta in *.
  change ((d1 :: ds1) ++ ?x) with (d1 :: (ds1 ++ x)).
  rewrite SkipSpace_at_rune by by apply isDigit_not_space. cbn [bind].
  change (d1 :: (ds1 ++ ?x)) with ((d1 :: ds1) ++ x).
  rewrite (scanUint_numeral 64 _ sequence) by done. cbn [bind].
  change ((d2 :: ds2) ++ ?x) with (d2 :: (ds2 ++ x)).
  rewrite advance_tab_at_rune by by apply isDigit_not_space. cbn [bind].
  rewrite SkipSpace_at_rune by by apply isDigit_not_space. cbn [bind].
  change (d2 :: (ds2 ++ ?x)) with ((d2 :: ds2) ++ x).
  rewrite (scanUint_numeral 8 _ eventType) by done. cbn [bind].
  change ((k1 :: key) ++ ?x) with (k1 :: (key ++ x)).
  rewrite advance_tab_at_rune by done. cbn [bind].
  rewrite SkipSpace_at_rune by done. cbn [bind].
  change (k1 :: (key ++ ?x)) with ((k1 :: key) ++ x).
  rewrite convertString_clean by done. reflexivity.
Qed.

Lemma roundtrip_fails_on_delete :
  ~ roundtrip_on_empty_log [WriteDelete (runes "a")].
Proof.
  intros Hclaim.
  eassert (steps (mkWriter (Run (fresh [])) true)
             [Submit (WriteDelete (runes "a"));
              Drain (WriteDelete (runes "a")) WriteOK] _) as Hsteps.
  { eapply steps_cons; [apply step_submit; cbn; unfold events_capacity; lia|].
    eapply steps_cons; [by eapply step_drain|]. apply steps_nil. }
  unfold roundtrip_on_empty_log, delimiter_free in Hclaim.
  specialize (Hclaim ltac:(cbn; repeat constructor; by vm_compute)
                _ _ Hsteps eq_refl eq_refl eq_refl).
  vm_compute in Hclaim. discriminate Hclaim.
Qed.

End RoundTrip.

(** ** The order of sequence numbers *)

Section SequenceOrder.

Implicit Types (l : FileTransactionLogger) (sent : list Signal)
  (lines : list (list rune)) (es : list Event).

Lemma read_loop_in_order lines es : forall from,
  Forall2 (fun line e => Sscanf line = inl e) lines es ->
  in_order from (map Sequence es) = true ->
  read_loop from lines false
  = (map OutEvent es, running_max from (map Sequence es)).
Proof.
  intros from Hparse. revert from.
  induction Hparse as [|line e lines es Hline _ IH]; intros from Hord; [done|].
  cbn in Hord. apply andb_prop in Hord as [Hlt%N.ltb_lt Hord].
  rewrite N.max_r in Hord by lia.
  cbn [read_loop]. rewrite Hline.
  destruct (N.leb_spec (Sequence e) from) as [|_]; [lia|].
  rewrite IH by done. unfold running_max. cbn. by rewrite N.max_r by lia.
Qed.

(** C2. When the second line of a log parses with a sequence number not
    greater than that of the first line, replay sends at most one event
    and then exactly one error, which ends the stream. In general, after
    lines whose sequence numbers each exceed the running maximum of the
    ones before, a line that exceeds the running maximum is delivered
    and a line that does not ends the stream with that one error. *)
Theorem out_of_sequence_ends_stream l lines tooLong :
  scan_lines (file l) = (lines, tooLong) ->
  (forall line1 line2 rest e1 e2,
      lines = line1 :: line2 :: rest ->
      Sscanf line1 = inl e1 -> Sscanf line2 = inl e2 ->
      Sequence e2 <= Sequence e1 ->
      exists before,
        (ReadEvents l).1 = map OutEvent before ++ [OutError ErrOutOfSequence] /\
        (length before <= 1)%nat) /\
  (forall pre line post es e,
      lines = pre ++ line :: post ->
      Forall2 (fun line e => Sscanf line = inl e) pre es ->
      in_order (lastSequence l) (map Sequence es) = true ->
      Sscanf line = inl e ->
      (Sequence e <= running_max (lastSequence l) (map Sequence es) ->
         (ReadEvents l).1 = map OutEvent es ++ [OutError ErrOutOfSequence]) /\
      (running_max (lastSequence l) (map Sequence es) < Sequence e ->
         exists sent, (ReadEvents l).1 = map OutEvent (es ++ [e]) ++ sent)).
Proof.
  intros Hscan. rewrite ReadEvents_sent, Hscan. cbn [fst snd]. split.
  - intros line1 line2 rest e1 e2 -> H1 H2 Hle.
    cbn [read_loop]. rewrite H1.
    destruct (N.leb_spec (Sequence e1) (lastSequence l)).
    + exists []. split; [done|]. cbn. lia.
    + rewrite H2. destruct (N.leb_spec (Sequence e2) (Sequence e1)); [|lia].
      exists [e1]. split; [done|]. cbn. lia.
  - intros pre line post es e -> Hpre Hord Hline.
    rewrite read_loop_app, (read_loop_in_order _ _ _ Hpre Hord).
    rewrite sent_errors_events. cbn [read_loop fst]. rewrite Hline. split.
    + intros Hle.
      by destruct (N.leb_spec (Sequence e)
                     (running_max (lastSequence l) (map Sequence es))); [|lia].
    + intros Hlt.
      destruct (N.leb_spec (Sequence e)
                  (running_max (lastSequence l) (map Sequence es))); [lia|].
      destruct (read_loop (Sequence e) post tooLong) as [sent last'].
      exists sent. cbn [fst]. by rewrite map_app, <- app_assoc.
Qed.

(** C10. On the logger that [NewFileTransactionLogger] returns, a log
    whose first line parses with sequence number 0 is rejected: replay
    sends no event and the one error "out of sequence". So the first
    event that a replay delivers has a sequence number of at least 1. *)
Theorem first_sequence_zero_is_rejected content l :
  (NewFileTransactionLogger (inl content)).1 = Some l ->
  (forall line rest tooLong e,
      scan_lines content = (line :: rest, tooLong) ->
      Sscanf line = inl e -> Sequence e = 0 ->
      (ReadEvents l).1 = [OutError ErrOutOfSequence]) /\
  (forall e sent, (ReadEvents l).1 = OutEvent e :: sent -> 1 <= Sequence e).
Proof.
  cbn. intros [= <-]. rewrite ReadEvents_sent. cbn [file lastSequence]. split.
  - intros line rest tooLong e -> Hline Hzero.
    cbn [fst snd read_loop]. by rewrite Hline, Hzero.
  - intros e sent. destruct (scan_lines content) as [[|line rest] tooLong];
      cbn [fst snd read_loop].
    + by destruct tooLong.
    + destruct (Sscanf line) as [e0|err]; [|done].
      destruct (N.leb_spec (Sequence e0) 0); [done|].
      destruct (read_loop (Sequence e0) rest tooLong). cbn. intros [= <- _]. lia.
Qed.

(** The sequence numbers that a replay delivers increase, and what it
    leaves as last sequence number is their running maximum. *)
Lemma read_loop_sorted lines : forall from tooLong tail,
  Sorted N.lt ((read_loop from lines tooLong).2 :: tail) ->
  Sorted N.lt
    (from :: map Sequence (sent_events (read_loop from lines tooLong).1) ++ tail).
Proof.
  induction lines as [|line lines IH]; intros from tooLong tail; cbn [read_loop].
  - by destruct tooLong.
  - destruct (Sscanf line) as [e|err]; [|done].
    destruct (N.leb_spec (Sequence e) from); [done|].
    specialize (IH (Sequence e) tooLong tail).
    destruct (read_loop (Sequence e) lines tooLong) as [sent last']. cbn in *.
    intros Htail. constructor; [by apply IH|]. by constructor.
Qed.

Lemma read_loop_running_max lines : forall from tooLong,
  (read_loop from lines tooLong).2
  = running_max from (map Sequence (sent_events (read_loop from lines tooLong).1)).
Proof.
  induction lines as [|line lines IH]; intros from tooLong; cbn [read_loop].
  - by destruct tooLong.
  - destruct (Sscanf line) as [e|err]; [|done].
    destruct (N.leb_spec (Sequence e) from); [done|].
    specialize (IH (Sequence e) tooLong).
    destruct (read_loop (Sequence e) lines tooLong) as [sent last']. cbn in *.
    unfold running_max in *. cbn. by rewrite N.max_r by lia.
Qed.

Lemma sequenced_sorted es : forall from,
  Sorted N.lt (from :: map Sequence (sequenced from es)).
Proof.
  induction es as [|e es IH]; intros from; cbn.
  - by repeat constructor.
  - constructor; [apply IH|]. constructor. lia.
Qed.

(** C4, amended. After a replay without error the writer starts from the
    highest sequence number [S] the replay has seen. As long as the
    numbers stay below 2^64, the events it writes are, in the order of
    submission, numbered [S+1], [S+2], ... and are appended to the log
    with these numbers; the numbers of the replayed events followed by
    these are strictly increasing, so every written event is numbered
    above every replayed one. When moreover the replayed log is empty or
    ends with a newline and every written event, numbered so, has a kind
    below 256, a key and a value that are not empty and hold no white
    space, and a record of at most 65536 bytes, newline included, the log
    that results replays without error as the replayed events followed by
    the written ones, and the sequence numbers it delivers are strictly
    increasing. *)
Theorem writer_continues_sequence content sent l tr s :
  ReadEvents (fresh content) = (sent, l) ->
  sent_errors sent = [] ->
  steps (mkWriter (Run l) true) tr s ->
  forallb write_ok tr = true ->
  lastSequence l + N.of_nat (length (written tr)) < uint64_limit ->
  lastSequence (Run l) = running_max 0 (map Sequence (sent_events sent)) /\
  submitted tr = written tr ++ events (logger s) /\
  file (logger s)
    = content ++ flat_map print_event (sequenced (lastSequence l) (written tr)) /\
  StronglySorted N.lt
    (map Sequence (sent_events sent ++ sequenced (lastSequence l) (written tr))) /\
  (forall e e', e ∈ sent_events sent ->
                e' ∈ sequenced (lastSequence l) (written tr) ->
                Sequence e < Sequence e') /\
  (content = [] \/ last content = Some NL ->
   Forall readable (sequenced (lastSequence l) (written tr)) ->
   (ReadEvents (fresh (file (logger s)))).1
     = map OutEvent (sent_events sent ++ sequenced (lastSequence l) (written tr)) /\
   StronglySorted N.lt
     (map Sequence (sent_events (ReadEvents (fresh (file (logger s)))).1))).
Proof.
  intros Hread Hclean Hsteps Hok Hlen.
  destruct (ReadEvents_clean _ _ _ Hread Hclean) as (lines & Hscan & Hloop & Hfile).
  pose proof (read_loop_running_max lines 0 false) as Hmax.
  pose proof (read_loop_sorted lines 0 false
                (map Sequence (sequenced (lastSequence l) (written tr)))) as Hsorted.
  rewrite Hloop in Hmax, Hsorted. cbn [fst snd] in *.
  specialize (Hsorted (sequenced_sorted _ _)).
  apply Sorted_StronglySorted in Hsorted; [|intros ? ? ?; apply N.lt_trans].
  apply StronglySorted_inv in Hsorted as [Hsorted _].
  rewrite <- map_app in Hsorted.
  assert (file (logger s) = content ++ records (lastSequence l) (written tr))
    as Hlog.
  { apply steps_write_all in Hsteps as [_ ->]; [|done].
    rewrite write_all_spec. cbn. by rewrite Hfile. }
  split; [done|]. split; [by apply steps_fifo in Hsteps|].
  split; [by rewrite Hlog, records_sequenced|]. split; [done|]. split.
  - intros e e' He He'. rewrite map_app in Hsorted.
    revert Hsorted He He'. generalize (sequenced (lastSequence l) (written tr)).
    generalize (sent_events sent). clear. intros old new.
    induction old as [|o old IH]; intros Hsorted He He'.
    + by apply elem_of_nil in He.
    + cbn in Hsorted. apply StronglySorted_inv in Hsorted as [Hrest Hall].
      apply elem_of_cons in He as [->|He]; [|by apply IH].
      rewrite List.Forall_forall in Hall. apply Hall.
      apply in_or_app. right. apply in_map. by apply list_elem_of_In.
  - intros Hend Hes. rewrite (sent_clean _ Hclean) in Hread.
    rewrite Hlog, (replay_after_append _ _ _ _ Hend Hread Hes Hlen).
    by rewrite sent_events_events.
Qed.

(** Without the condition on keys and values the log need not stay in
    order: the record of a Put whose value holds a newline and then the
    text of a record numbered 1 is read back as two records numbered 1. *)
Lemma embedded_record_breaks_order :
  (ReadEvents
     (fresh (records 0
        [WritePut (runes "a")
           (runes "b" ++ NL :: record_line 1 EventPut (runes "c") (runes "d"))]))).1
  = [OutEvent {| Sequence := 1; EventType := EventPut;
                 Key := runes "a"; Value := runes "b" |};
     OutError ErrOutOfSequence].
Proof. vm_compute. reflexivity. Qed.

(** At the last uint64 the numbering wraps: after a replay that has seen
    18446744073709551615 the next record is written with sequence 0. *)
Lemma sequence_wraps_at_uint64 :
  ~ sequence_continues
      (print_event {| Sequence := 18446744073709551615; EventType := EventPut;
                      Key := runes "a"; Value := runes "b" |})
      [Submit (WritePut (runes "c") (runes "d"));
       Drain (WritePut (runes "c") (runes "d")) WriteOK].
Proof.
  intros Hclaim.
  eassert (steps (mkWriter (Run _) true)
             [Submit (WritePut (runes "c") (runes "d"));
              Drain (WritePut (runes "c") (runes "d")) WriteOK] _) as Hsteps.
  { eapply steps_cons; [apply step_submit; cbn; unfold events_capacity; lia|].
    eapply steps_cons; [by eapply step_drain|]. apply steps_nil. }
  specialize (Hclaim _ _ _ eq_refl eq_refl Hsteps eq_refl).
  vm_compute in Hclaim. discriminate Hclaim.
Qed.

End SequenceOrder.

(** ** Malformed lines *)

Section Malformed.

Implicit Types (s rest tok line : list rune) (r : rune).

Lemma SkipSpace_inv s : forall s',
  SkipSpace s = inl s' ->
  s' = skip_spaces s /\
  count_fields false s = count_fields false s' /\
  match s' with [] => True | r :: _ => isSpace r = false end.
Proof.
  induction s as [|r s IH]; intros s'; cbn [SkipSpace skip_spaces].
  - by intros [= <-].
  - destruct (r =? NL); [done|].
    destruct (isSpace r) eqn:Hr.
    + intros Hs. destruct (IH _ Hs) as (-> & Hcount & Hhead).
      cbn [count_fields]. by rewrite Hr.
    + by intros [= <-].
Qed.

Lemma skip_spaces_head s :
  match skip_spaces s with [] => True | r :: _ => isSpace r = false end.
Proof.
  induction s as [|r s IH]; [done|]. cbn. by destruct (isSpace r) eqn:Hr.
Qed.



Lemma token_inv s : forall tok rest,
  token s = (tok, rest) ->
  s = tok ++ rest /\ Forall (fun r => isSpace r = false) tok.
Proof.
  induction s as [|r s IH]; intros tok rest; cbn.
  - by intros [= <- <-].
  - destruct (isSpace r) eqn:Hr.
    + by intros [= <- <-].
    + destruct (token s) as [tok' rest'].
      intros [= <- <-]. destruct (IH _ _ eq_refl) as [-> Htok].
      split; [done|]. by constructor.
Qed.




Lemma digits_not_space tok :
  Forall (fun r => isDigit r = true) tok ->
  Forall (fun r => isSpace r = false) tok.
Proof.
  intros Htok. eapply Forall_impl; [exact Htok|]. apply isDigit_not_space.
Qed.







End Malformed.

(** ** Start-up *)

Section Startup.

(** Whatever [initializeTransactionLog] returns, [main] goes on to
    serve. *)
Lemma main_ignores_the_error opened late data lg err :
  initializeTransactionLog opened ∅ late = (data, lg, err) ->
  main opened late None = Serving data lg.
Proof. unfold main. by intros ->. Qed.

(** C3. The log that the program itself leaves after Put("a", "b") and
    Delete("a") makes the start-up replay fail with a parse error on its
    second line; [initializeTransactionLog] returns that error, and
    [main] serves requests all the same, on a store that still holds
    "a". *)
Theorem main_serves_after_failed_replay :
  let log := records 0 [WritePut (runes "a") (runes "b"); WriteDelete (runes "a")] in
  (initializeTransactionLog (inl log) ∅ false).2
    = Some (ErrInputParse UnexpectedEOF) /\
  main (inl log) false None
    = Serving (<[runes "a" := runes "b"]> ∅)
        (Some {| events := []; errors := []; lastSequence := 1; file := log |}).
Proof. split; reflexivity. Qed.

End Startup.

(** ** The properties on sample runs *)

Section Samples.

Lemma sample_run_steps :
  steps (mkWriter (Run (fresh [])) true) sample_run sample_written.
Proof.
  eapply steps_cons; [apply step_submit; cbn; unfold events_capacity; lia|].
  eapply steps_cons; [|apply steps_nil].
  exact (step_drain (with_events (Run (fresh [])) [sample_put])
           sample_put [] WriteOK eq_refl).
Qed.

Lemma sample_run2_steps :
  steps (mkWriter (Run sample_replayed) true) sample_run2 sample_written2.
Proof.
  eapply steps_cons; [apply step_submit; cbn; unfold events_capacity; lia|].
  eapply steps_cons; [apply step_submit; cbn; unfold events_capacity; lia|].
  eapply steps_cons; [by eapply step_drain|].
  eapply steps_cons; [by eapply step_drain|]. apply steps_nil.
Qed.

Lemma sample_replay :
  ReadEvents (fresh sample_prior_log)
  = (map OutEvent [sample_prior_event], sample_replayed).
Proof. vm_compute. reflexivity. Qed.

Lemma sample_run2_readable :
  Forall readable (sequenced (lastSequence sample_replayed) (submitted sample_run2)).
Proof.
  repeat constructor; try discriminate; vm_compute; (reflexivity || discriminate).
Qed.

Lemma sample_fill_steps :
  steps (mkWriter (Run (fresh [])) true) (map Submit sample_batch) sample_full.
Proof.
  apply (steps_submits sample_batch (Run (fresh [])) true).
  cbn. unfold events_capacity. lia.
Qed.

Lemma sample_drain_steps :
  steps (mkWriter (Run (fresh [])) true)
        (map Submit sample_batch ++ map (fun e => Drain e WriteOK) sample_batch)
        sample_drained.
Proof.
  eapply steps_app; [apply sample_fill_steps|].
  apply (steps_drains sample_batch (with_events (Run (fresh [])) sample_batch)).
  reflexivity.
Qed.

Example log_roundtrip_witness :
  (ReadEvents (fresh (file (logger sample_written2)))).1
  = [OutEvent {| Sequence := 5; EventType := EventPut;
                 Key := runes "x"; Value := runes "y" |};
     OutEvent {| Sequence := 6; EventType := EventPut;
                 Key := runes "a"; Value := runes "1" |};
     OutEvent {| Sequence := 7; EventType := EventPut;
                 Key := runes "b"; Value := runes "2" |}].
Proof.
  apply (log_roundtrip sample_prior_log sample_replayed [sample_prior_event]
           sample_run2 sample_written2).
  - right. reflexivity.
  - apply sample_replay.
  - apply sample_run2_steps.
  - reflexivity.
  - reflexivity.
  - apply sample_run2_readable.
  - vm_compute. reflexivity.
Defined.

Example out_of_sequence_ends_stream_witness :
  exists before,
    (ReadEvents (fresh sample_repeated_log)).1
      = map OutEvent before ++ [OutError ErrOutOfSequence] /\
    (length before <= 1)%nat.
Proof.
  apply (proj1 (out_of_sequence_ends_stream (fresh sample_repeated_log)
                  [record_line 1 EventPut (runes "a") (runes "b");
                   record_line 1 EventPut (runes "c") (runes "d")]
                  false eq_refl)
           (record_line 1 EventPut (runes "a") (runes "b"))
           (record_line 1 EventPut (runes "c") (runes "d")) []
           {| Sequence := 1; EventType := EventPut;
              Key := runes "a"; Value := runes "b" |}
           {| Sequence := 1; EventType := EventPut;
              Key := runes "c"; Value := runes "d" |}).
  - reflexivity.
  - reflexivity.
  - reflexivity.
  - cbn. lia.
Defined.

Example first_sequence_zero_is_rejected_witness :
  (ReadEvents (fresh sample_zero_log)).1 = [OutError ErrOutOfSequence].
Proof.
  apply (proj1 (first_sequence_zero_is_rejected sample_zero_log
                  (fresh sample_zero_log) eq_refl)
           (record_line 0 EventPut (runes "a") (runes "b")) [] false
           {| Sequence := 0; EventType := EventPut;
              Key := runes "a"; Value := runes "b" |}).
  - reflexivity.
  - reflexivity.
  - reflexivity.
Defined.

Example writer_continues_sequence_witness :
  lastSequence (Run sample_replayed) = 5 /\
  file (logger sample_written2)
    = sample_prior_log
        ++ Fprintf 6 EventPut (runes "a") (runes "1")
        ++ Fprintf 7 EventPut (runes "b") (runes "2") /\
  (ReadEvents (fresh (file (logger sample_written2)))).1
    = [OutEvent {| Sequence := 5; EventType := EventPut;
                   Key := runes "x"; Value := runes "y" |};
       OutEvent {| Sequence := 6; EventType := EventPut;
                   Key := runes "a"; Value := runes "1" |};
       OutEvent {| Sequence := 7; EventType := EventPut;
                   Key := runes "b"; Value := runes "2" |}] /\
  StronglySorted N.lt
    (map Sequence
       (sent_events (ReadEvents (fresh (file (logger sample_written2)))).1)).
Proof.
  destruct (writer_continues_sequence sample_prior_log
              (map OutEvent [sample_prior_event]) sample_replayed
              sample_run2 sample_written2
              sample_replay eq_refl sample_run2_steps eq_refl eq_refl)
    as (Hinit & _ & Hfile & _ & _ & Hreplay).
  destruct (Hreplay (or_intror eq_refl) sample_run2_readable) as [Hsent Hsorted].
  split; [exact Hinit|]. split; [exact Hfile|]. split; [exact Hsent|exact Hsorted].
Defined.


Example failed_write_stops_writer_witness :
  Err (logger sample_failed) = [ErrIO 5] /\ running sample_failed = false /\
  Err (logger sample_after_failure) = [ErrIO 5] /\
  running sample_after_failure = false /\
  written [Submit (WriteDelete (runes "a"))] = [] /\
  file (logger sample_after_failure) = file (logger sample_failed) /\
  file (logger sample_failed)
    = file (logger sample_queued)
        ++ take 0 (Fprintf (next_sequence (lastSequence (logger sample_queued)))
                     (EventType sample_put) (Key sample_put) (Value sample_put)).
Proof.
  apply (failed_write_stops_writer (fresh []) [Submit sample_put] sample_queued
           sample_put 0%nat (ErrIO 5) sample_failed
           [Submit (WriteDelete (runes "a"))] sample_after_failure).
  - eapply steps_cons; [|apply steps_nil].
    apply (step_submit (Run (fresh [])) true sample_put).
    cbn. unfold events_capacity. lia.
  - exact (step_drain (logger sample_queued) sample_put []
             (WriteFailed 0 (ErrIO 5)) eq_refl).
  - eapply steps_cons; [|apply steps_nil].
    apply (step_submit (logger sample_failed) false (WriteDelete (runes "a"))).
    cbn. unfold events_capacity. lia.
Defined.

Example bounded_queue_backpressure_witness :
  ((length (events (logger sample_full)) = 16)%nat /\
   (forall e s', ~ step sample_full (Submit e) s') /\
   events (logger sample_full) = sample_batch) /\
  (file (logger sample_drained) = log_text 0 sample_batch /\
   steps sample_drained (map Submit sample_batch)
     (mkWriter (with_events (logger sample_drained) sample_batch) true)).
Proof.
  split.
  - destruct (bounded_queue_backpressure (fresh []) (map Submit sample_batch)
                sample_full sample_fill_steps)
      as (_ & _ & _ & Hfull & Hfifo & _).
    split; [reflexivity|]. split; [exact (Hfull eq_refl)|].
    symmetry. exact Hfifo.
  - destruct (bounded_queue_backpressure (fresh []) _
                sample_drained sample_drain_steps)
      as (_ & _ & Hroom & _ & _ & Hlog).
    split; [exact (Hlog eq_refl eq_refl)|].
    apply (Hroom sample_batch). cbn. lia.
Defined.

End Samples.

(** * Further properties *)

(** ** The store as a map *)

Section StoreAlgebra.

Implicit Types (data : Store) (key value : list rune) (op : Op).

(** X1. Mutations of different keys commute: the store they leave does
    not depend on the order in which they are applied. *)
Theorem mutations_of_distinct_keys_commute data op1 op2 :
  op_key op1 <> op_key op2 ->
  apply_op (apply_op data op1) op2 = apply_op (apply_op data op2) op1.
Proof.
  intros Hne. destruct op1 as [k1 v1|k1], op2 as [k2 v2|k2]; cbn in *.
  - by apply insert_insert_ne.
  - by rewrite delete_insert_ne.
  - by rewrite delete_insert_ne.
  - apply delete_delete.
Qed.

(** X2. On one key the last mutation wins, whatever came before: a Put
    after a Put or a Delete leaves the store of the Put alone, and a
    Delete after a Put leaves the store of the Delete alone. *)
Theorem last_mutation_of_a_key_wins data key v1 v2 :
  (Put (Put data key v1).1 key v2).1 = (Put data key v2).1 /\
  (Put (Delete data key).1 key v2).1 = (Put data key v2).1 /\
  (Delete (Put data key v1).1 key).1 = (Delete data key).1 /\
  (Delete (Delete data key).1 key).1 = (Delete data key).1.
Proof.
  unfold Put, Delete. cbn [fst].
  by rewrite insert_insert_eq, insert_delete_eq, delete_insert_eq, delete_delete_eq.
Qed.

End StoreAlgebra.

(** ** The request handlers *)

Section Handlers.

Implicit Types (data : Store) (key value : list rune) (req : Request)
  (lg : option FileTransactionLogger) (l : FileTransactionLogger).

Lemma apply_event_no_error data e : (apply_event data e).2 = None.
Proof.
  unfold apply_event. by destruct (_ =? _); [|destruct (_ =? _)].
Qed.

Lemma send_spec lg e :
  match lg with
  | None => send lg e = NilLogger
  | Some l =>
      ((length (events l) < events_capacity)%nat /\
       send lg e = Sent (with_events l (events l ++ [e]))) \/
      ((events_capacity <= length (events l))%nat /\ send lg e = NoRoom)
  end.
Proof.
  destruct lg as [l|]; [|done]. unfold send.
  destruct (Nat.ltb_spec (length (events l)) events_capacity); [left|right]; done.
Qed.

(** A handler in full: what it leaves for each request and each state of
    the logger. *)
Lemma serve_spec data lg req :
  match sends data req with
  | None =>
      exists resp, serve data lg req = (data, lg, Responded resp) /\
                   status resp <> 201
  | Some e =>
      match send lg e with
      | Sent l' =>
          exists resp, serve data lg req = ((apply_event data e).1, Some l', Responded resp) /\
                       status resp <> 404 /\ status resp <> 500
      | NilLogger => serve data lg req = ((apply_event data e).1, lg, Panicked)
      | NoRoom => serve data lg req = ((apply_event data e).1, lg, Waiting e)
      end
  end.
Proof.
  destruct req as [key [value|err]|key|key]; cbn [sends serve].
  - unfold keyValuePutHandler. cbn [Put].
    destruct (send lg (WritePut key value));
      first [done | eexists; split; [reflexivity|by cbn]].
  - eexists. split; [reflexivity|]. by cbn.
  - eexists. split; [reflexivity|].
    unfold keyValueGetHandler, Get. by destruct (data !! key).
  - unfold keyValueDeleteHandler, Get.
    destruct (data !! key) as [v|] eqn:Hk; cbn [is_no_such_key Delete].
    + destruct (send lg (WriteDelete key));
        first [done | eexists; split; [reflexivity|by cbn]].
    + eexists. split; [reflexivity|]. by cbn.
Qed.

Lemma with_events_grows l e : with_events l (events l ++ [e]) <> l.
Proof.
  intros Heq. apply (f_equal (fun x => length (events x))) in Heq.
  cbn in Heq. rewrite length_app in Heq. cbn in Heq. lia.
Qed.

(** A schedule that runs to its end is a run of the writer, and the store
    follows the events submitted. *)
Lemma run_steps sched : forall data w data' wr' resps,
  run data (Some w) sched = Some (data', wr', resps) ->
  exists w' tr,
    wr' = Some w' /\ steps w tr w' /\
    fold_left (fun d e => (apply_event d e).1) (submitted tr) data = data' /\
    (forallb turn_ok sched = true -> forallb write_ok tr = true) /\
    (Forall not_delete sched -> submitted tr = puts_of sched).
Proof.
  induction sched as [|[req|wo] sched IH]; intros data w data' wr' resps Hrun.
  - cbn in Hrun. injection Hrun as <- <- <-. exists w, []. repeat split; constructor.
  - cbn [run logger_of] in Hrun.
    pose proof (serve_spec data (Some (logger w)) req) as Hserve.
    pose proof (send_spec (Some (logger w))) as Hsend.
    destruct (sends data req) as [e|] eqn:Hsends.
    + specialize (Hsend e).
      destruct Hsend as [[Hroom Hsent]|[_ Hfull]]; rewrite ?Hsent, ?Hfull in Hserve;
        [|by rewrite Hserve in Hrun].
      destruct Hserve as (resp & Hserve & _). rewrite Hserve in Hrun.
      destruct (run _ _ sched) as [[[data2 wr2] resps2]|] eqn:Hrest; [|done].
      injection Hrun as <- <- <-.
      destruct (IH _ _ _ _ _ Hrest) as (w' & tr & -> & Hsteps & Hfold & Hok & Hputs).
      exists w', (Submit e :: tr). split; [done|]. split.
      { eapply steps_cons; [|exact Hsteps]. destruct w as [l r]. by apply step_submit. }
      split; [exact Hfold|]. split; [exact Hok|].
      intros Hnd. inversion Hnd as [|? ? Hreq Hnd']; subst.
      destruct req as [key [value|err]|key|key]; try done.
      cbn in Hsends. injection Hsends as <-. cbn. f_equal. by apply Hputs.
    + destruct Hserve as (resp & Hserve & _). rewrite Hserve in Hrun.
      assert (Some {| logger := logger w; running := running w |} = Some w) as Hw
        by by destruct w.
      destruct w as [l r]. cbn [logger running] in *.
      destruct (run data (Some _) sched) as [[[data2 wr2] resps2]|] eqn:Hrest; [|done].
      injection Hrun as <- <- <-.
      destruct (IH _ _ _ _ _ Hrest) as (w' & tr & -> & Hsteps & Hfold & Hok & Hputs).
      exists w', tr. repeat split; try done.
      intros Hnd. inversion Hnd as [|? ? Hreq Hnd']; subst.
      destruct req as [key [value|err]|key|key]; try done; by apply Hputs.
  - cbn [run] in Hrun. destruct w as [l [|]]; [|done].
    destruct (events l) as [|e q] eqn:Hq; [done|].
    destruct (IH _ _ _ _ _ Hrun) as (w' & tr & -> & Hsteps & Hfold & Hok & Hputs).
    exists w', (Drain e wo :: tr). split; [done|]. split.
    { eapply steps_cons; [|exact Hsteps]. by apply step_drain. }
    split; [exact Hfold|]. split.
    + cbn. intros [Hwo Hrest]%andb_prop. rewrite Hok by done.
      by destruct wo.
    + intros Hnd. inversion Hnd; subst. cbn. by apply Hputs.
Qed.

(** With the nil logger a schedule runs to its end only if no handler
    reaches the logger. *)
Lemma run_nil sched : forall data data' wr' resps,
  run data None sched = Some (data', wr', resps) -> data' = data /\ wr' = None.
Proof.
  induction sched as [|[req|wo] sched IH]; intros data data' wr' resps Hrun.
  - cbn in Hrun. by injection Hrun as <- <- <-.
  - cbn [run logger_of] in Hrun.
    pose proof (serve_spec data None req) as Hserve.
    destruct (sends data req) as [e|]; cbn [send] in Hserve.
    + by rewrite Hserve in Hrun.
    + destruct Hserve as (resp & Hserve & _). rewrite Hserve in Hrun.
      destruct (run data None sched) as [[[data2 wr2] resps2]|] eqn:Hrest; [|done].
      injection Hrun as <- <- <-. by eapply IH.
  - done.
Qed.

(** X3. Store and log stay in step through every schedule of requests and
    turns of the writer's goroutine in which each request is answered.
    With the nil logger that a failed open leaves, such a schedule leaves
    the store as it was. With a logger started on a log, and every write
    succeeding, the goroutine still runs; the log has gained the records,
    numbered on from the last sequence number, of a list of events; and
    these events followed by the events still buffered, applied in order
    to the store the schedule started from, give the store it leaves. *)
Theorem served_store_is_replay_of_sent_events data sched data' wr' resps :
  (run data None sched = Some (data', wr', resps) -> data' = data /\ wr' = None) /\
  (forall l,
     run data (Some (mkWriter (Run l) true)) sched = Some (data', wr', resps) ->
     forallb turn_ok sched = true ->
     exists w' wrote,
       wr' = Some w' /\ running w' = true /\
       file (logger w') = file l ++ records (lastSequence l) wrote /\
       fold_left (fun d e => (apply_event d e).1) (wrote ++ events (logger w')) data
       = data').
Proof.
  split; [apply run_nil|]. intros l Hrun Hturns.
  destruct (run_steps _ _ _ _ _ _ Hrun) as (w' & tr & -> & Hsteps & Hfold & Hok & _).
  specialize (Hok Hturns).
  pose proof (steps_fifo _ _ _ Hsteps) as Hfifo. cbn in Hfifo.
  destruct (steps_write_all _ _ _ Hsteps Hok) as [Hrunning Hlogger].
  exists w', (written tr). split; [done|]. split; [done|]. split.
  - rewrite Hlogger, write_all_spec. done.
  - by rewrite <- Hfifo.
Qed.

(** X4. A DELETE of a key that is not in the store is answered 404, with
    the text of [ErrorNoSuchKey]; it leaves the store as it is and does
    not touch the logger, whatever the logger is. So of two DELETE of one
    key in a row the second is always answered 404, however the first
    ended. *)
Theorem delete_of_missing_key_is_not_found data lg key :
  (data !! key = None ->
   keyValueDeleteHandler data lg key
   = (data, lg, Responded {| status := 404; body := ErrorText ErrorNoSuchKey |})) /\
  (forall lg',
     keyValueDeleteHandler (keyValueDeleteHandler data lg key).1.1 lg' key
     = ((keyValueDeleteHandler data lg key).1.1, lg',
        Responded {| status := 404; body := ErrorText ErrorNoSuchKey |})).
Proof.
  assert (forall d g, d !! key = None ->
            keyValueDeleteHandler d g key
            = (d, g, Responded {| status := 404; body := ErrorText ErrorNoSuchKey |}))
    as Hmissing.
  { intros d g Hd. unfold keyValueDeleteHandler, Get. by rewrite Hd. }
  split; [apply Hmissing|]. intros lg'. apply Hmissing.
  unfold keyValueDeleteHandler, Get. destruct (data !! key) eqn:Hk; cbn; [|done].
  destruct (send lg (WriteDelete key)); cbn; apply lookup_delete_eq.
Qed.

(** X5. A PUT whose body is read stores the body under the key before it
    turns to the logger: whatever the logger is, a GET of the key that
    follows is answered 200 with that body, and a GET of any other key as
    before the PUT. With a logger whose buffer holds fewer than 16 events
    the PUT is answered 201 and its Put event is the last in the buffer.
    With the nil logger that a failed open leaves the handler panics, and
    with a buffer of 16 events it waits: in both cases no response is
    written and the logger is as it was, but the store holds the body. *)
Theorem get_after_put_returns_the_body data lg key value :
  keyValueGetHandler (keyValuePutHandler data lg key (inl value)).1.1 key
  = {| status := 200; body := Text value |} /\
  (forall key', key' <> key ->
     keyValueGetHandler (keyValuePutHandler data lg key (inl value)).1.1 key'
     = keyValueGetHandler data key') /\
  (forall l, lg = Some l -> (length (events l) < 16)%nat ->
     keyValuePutHandler data lg key (inl value)
     = (<[key:=value]> data,
        Some (with_events l (events l ++ [WritePut key value])),
        Responded {| status := 201; body := NoBody |})) /\
  (lg = None ->
     keyValuePutHandler data lg key (inl value)
     = (<[key:=value]> data, None, Panicked)) /\
  (forall l, lg = Some l -> (16 <= length (events l))%nat ->
     keyValuePutHandler data lg key (inl value)
     = (<[key:=value]> data, Some l, Waiting (WritePut key value))).
Proof.
  assert ((keyValuePutHandler data lg key (inl value)).1.1 = <[key:=value]> data)
    as Hstore.
  { unfold keyValuePutHandler, Put. by destruct (send lg (WritePut key value)). }
  rewrite Hstore. unfold keyValueGetHandler, Get.
  split; [by rewrite lookup_insert_eq|]. split.
  { intros key' Hne. by rewrite lookup_insert_ne. }
  unfold keyValuePutHandler, Put, send, events_capacity.
  split; [|split].
  - intros l -> Hroom.
    by destruct (Nat.ltb_spec (length (events l)) 16); [|lia].
  - by intros ->.
  - intros l -> Hfull.
    by destruct (Nat.ltb_spec (length (events l)) 16); [lia|].
Qed.

(** X6. A request answered 404 or 500 leaves the store and the logger as
    they were. A request that is answered and leaves the logger as it was
    leaves the store as it was, so every change of the store that is
    answered has its event in the buffer. A request whose handler panics
    (the logger is nil) or waits (the buffer holds 16 events or more)
    leaves the logger as it was, but the store has the event of the
    request applied: the store is then ahead of the log. *)
Theorem unlogged_request_leaves_store data lg req :
  (forall resp, (serve data lg req).2 = Responded resp ->
     status resp = 404 \/ status resp = 500 ->
     (serve data lg req).1 = (data, lg)) /\
  (forall resp, (serve data lg req).2 = Responded resp ->
     (serve data lg req).1.2 = lg -> (serve data lg req).1.1 = data) /\
  ((serve data lg req).2 = Panicked ->
     lg = None /\
     exists e, sends data req = Some e /\
               (serve data lg req).1 = ((apply_event data e).1, lg)) /\
  (forall e, (serve data lg req).2 = Waiting e ->
     (exists l, lg = Some l /\ (16 <= length (events l))%nat) /\
     sends data req = Some e /\
     (serve data lg req).1 = ((apply_event data e).1, lg)).
Proof.
  pose proof (serve_spec data lg req) as Hserve.
  destruct (sends data req) as [e|] eqn:Hsends.
  - pose proof (send_spec lg e) as Hsend. destruct lg as [l|].
    + destruct Hsend as [[Hroom Hsent]|[Hfull Hnoroom]].
      * rewrite Hsent in Hserve. destruct Hserve as (resp & -> & H404 & H500).
        cbn [fst snd]. split; [|split; [|split]].
        -- intros resp' [= <-] [|]; done.
        -- intros resp' _ [= Heq]. by apply with_events_grows in Heq.
        -- done.
        -- done.
      * rewrite Hnoroom in Hserve. rewrite Hserve. cbn [fst snd].
        split; [done|]. split; [done|]. split; [done|].
        intros e' [= <-]. unfold events_capacity in Hfull. eauto.
    + rewrite Hsend in Hserve. rewrite Hserve. cbn [fst snd].
      split; [done|]. split; [done|]. split; [eauto|done].
  - destruct Hserve as (resp & -> & _). cbn [fst snd].
    split; [done|]. split; [done|]. split; done.
Qed.

End Handlers.

(** ** What the scanner accepts *)

Section ScannerLatitude.

Implicit Types (s rest tok lead trail : list rune) (r : rune).

Lemma at_field_app tok rest :
  tok <> [] -> Forall (fun r => isSpace r = false) tok -> at_field (tok ++ rest).
Proof. intros Hne Htok. destruct tok; [done|]. by inversion Htok. Qed.

Lemma at_end_of_field_blanks b rest :
  b <> [] -> Forall blank b -> at_end_of_field (b ++ rest).
Proof. intros Hne Hb. destruct b; [done|]. by inversion Hb as [|? ? [? ?] ?]. Qed.

Lemma at_end_of_field_not_digit rest :
  at_end_of_field rest ->
  match rest with [] => True | r :: _ => isDigit r = false end.
Proof.
  destruct rest as [|r rest]; [done|]. cbn. intros Hr.
  destruct (isDigit r) eqn:Hd; [|done].
  apply isDigit_not_space in Hd. congruence.
Qed.

Lemma SkipSpace_at_field s : at_field s -> SkipSpace s = inl s.
Proof. destruct s; [done|]. apply SkipSpace_at_rune. Qed.

Lemma SkipSpace_blanks lead s :
  Forall blank lead -> at_field s -> SkipSpace (lead ++ s) = inl s.
Proof.
  intros Hlead Hs. induction Hlead as [|r lead [Hr Hnl] _ IH].
  - by apply SkipSpace_at_field.
  - cbn. destruct (N.eqb_spec r NL); [done|]. by rewrite Hr.
Qed.

Lemma skip_blanks_blanks b s :
  Forall blank b -> at_field s -> skip_blanks (b ++ s) = s.
Proof.
  intros Hb Hs. induction Hb as [|r b [Hr Hnl] _ IH].
  - destruct s as [|r s]; [done|]. cbn in *. by rewrite Hs.
  - cbn. rewrite Hr. by destruct (N.eqb_spec r NL).
Qed.

Lemma advance_tab_blanks b s :
  b <> [] -> Forall blank b -> at_field s -> advance_tab (b ++ s) = inl s.
Proof.
  intros Hne Hb Hs. destruct b as [|r b]; [done|].
  inversion Hb as [|? ? [Hr Hnl] Hb']; subst. cbn. rewrite Hr. cbn.
  destruct (N.eqb_spec r NL); [done|]. by rewrite skip_blanks_blanks.
Qed.

Lemma scanUint_token bitSize tok n rest :
  numeral tok -> ParseUint tok = Some n -> n < 2 ^ bitSize ->
  at_end_of_field rest ->
  scanUint bitSize (tok ++ rest) = inl (n, rest).
Proof.
  intros [Hne Htok] Hparse Hn Hrest. unfold scanUint.
  rewrite SkipSpace_at_field by by apply at_field_app, digits_not_space.
  cbn [bind]. destruct (tok ++ rest) as [|r s] eqn:Heq.
  { by destruct tok. }
  rewrite <- Heq, accept_digits_app; [|done|by apply at_end_of_field_not_digit].
  destruct tok as [|d tok]; [done|]. rewrite Hparse.
  by destruct (N.ltb_spec n (2 ^ bitSize)); [|lia].
Qed.

Lemma numeral_FormatUint n : numeral (FormatUint n).
Proof. split; [apply FormatUint_nonempty|apply FormatUint_isDigit]. Qed.

(** X7. The scanner of the log takes more than the writer prints: the four
    fields may follow leading blanks, be separated by any non-empty runs
    of blanks (white space other than newline) instead of single tabs, and
    be followed by white space and anything after it; the event read is
    the same. *)
Theorem Sscanf_takes_any_blanks lead b1 b2 b3 trail sequence eventType key value :
  sequence < uint64_limit -> eventType < 256 -> clean key -> clean value ->
  Forall blank lead ->
  b1 <> [] -> Forall blank b1 ->
  b2 <> [] -> Forall blank b2 ->
  b3 <> [] -> Forall blank b3 ->
  at_end_of_field trail ->
  Sscanf (lead ++ FormatUint sequence ++ b1 ++ FormatUint eventType ++ b2
            ++ key ++ b3 ++ value ++ trail)
  = inl {| Sequence := sequence; EventType := eventType;
           Key := key; Value := value |}.
Proof.
  intros Hseq Hty Hkey Hvalue Hlead Hne1 Hb1 Hne2 Hb2 Hne3 Hb3 Htrail.
  assert (eventType < uint64_limit) as Hty64 by (unfold uint64_limit; cbn; lia).
  pose proof (numeral_FormatUint sequence) as [Hn1 Hd1].
  pose proof (numeral_FormatUint eventType) as [Hn2 Hd2].
  destruct Hkey as [Hkne Hk]. destruct Hvalue as [Hvne Hv].
  unfold Sscanf.
  rewrite SkipSpace_blanks by by auto using at_field_app, digits_not_space.
  cbn [bind].
  rewrite (scanUint_token 64 _ sequence)
    by by auto using ParseUint_FormatUint, at_end_of_field_blanks.
  cbn [bind].
  rewrite advance_tab_blanks by by auto using at_field_app, digits_not_space.
  cbn [bind].
  rewrite SkipSpace_at_field by by auto using at_field_app, digits_not_space.
  cbn [bind].
  rewrite (scanUint_token 8 _ eventType)
    by by auto using ParseUint_FormatUint, at_end_of_field_blanks.
  cbn [bind].
  rewrite advance_tab_blanks by by auto using at_field_app.
  cbn [bind].
  rewrite SkipSpace_at_field by by auto using at_field_app.
  cbn [bind].
  rewrite convertString_clean; [|by split|by apply at_end_of_field_blanks].
  cbn [bind].
  rewrite advance_tab_blanks by by auto using at_field_app.
  cbn [bind].
  rewrite SkipSpace_at_field by by auto using at_field_app.
  cbn [bind].
  by rewrite convertString_clean; [|split|].
Qed.

Lemma scanUint_bound bitSize s n rest :
  scanUint bitSize s = inl (n, rest) -> n < uint64_limit /\ n < 2 ^ bitSize.
Proof.
  unfold scanUint. destruct (SkipSpace s) as [s1|]; [|done]. cbn [bind].
  destruct s1 as [|r s1]; [done|].
  destruct (accept_digits (r :: s1)) as [tok rest'].
  destruct tok as [|d tok]; [done|].
  unfold ParseUint.
  destruct (N.ltb_spec (digits_value 0 (d :: tok)) uint64_limit); [|done].
  destruct (N.ltb_spec (digits_value 0 (d :: tok)) (2 ^ bitSize)); [|done].
  by intros [= <- _].
Qed.

Lemma convertString_token s tok rest :
  convertString s = inl (tok, rest) -> clean tok.
Proof.
  unfold convertString. destruct (SkipSpace s) as [s1|] eqn:Hskip; [|done].
  apply SkipSpace_inv in Hskip as (_ & _ & Hhead). cbn [bind].
  destruct s1 as [|r s1]; [done|]. intros Hinl.
  assert (token (r :: s1) = (tok, rest)) as Htoken by congruence.
  destruct (token_inv _ _ _ Htoken) as [_ Htok]. split; [|done].
  cbn in Htoken. rewrite Hhead in Htoken.
  destruct (token s1) as [tok' rest']. by injection Htoken as <- <-.
Qed.

(** X8. Every event the scanner reads from a line has a sequence number
    below 2^64, a kind below 256, and a key and a value that are not empty
    and hold no white space; printing the event as a record and scanning
    the record gives the event back. *)
Theorem Sscanf_reads_printable_events line e :
  Sscanf line = inl e ->
  Sequence e < uint64_limit /\ EventType e < 256 /\
  clean (Key e) /\ clean (Value e) /\
  Sscanf (record_line (Sequence e) (EventType e) (Key e) (Value e)) = inl e.
Proof.
  unfold Sscanf.
  destruct (SkipSpace line) as [s0|]; [|done]. cbn [bind].
  destruct (scanUint 64 s0) as [[n1 s1]|] eqn:H1; [|done]. cbn [bind].
  destruct (advance_tab s1) as [s2|]; [|done]. cbn [bind].
  destruct (SkipSpace s2) as [s3|]; [|done]. cbn [bind].
  destruct (scanUint 8 s3) as [[n2 s4]|] eqn:H4; [|done]. cbn [bind].
  destruct (advance_tab s4) as [s5|]; [|done]. cbn [bind].
  destruct (SkipSpace s5) as [s6|]; [|done]. cbn [bind].
  destruct (convertString s6) as [[key s7]|] eqn:H7; [|done]. cbn [bind].
  destruct (advance_tab s7) as [s8|]; [|done]. cbn [bind].
  destruct (SkipSpace s8) as [s9|]; [|done]. cbn [bind].
  destruct (convertString s9) as [[value s10]|] eqn:H10; [|done].
  intros [= <-]. cbn [Sequence EventType Key Value].
  apply scanUint_bound in H1 as [Hseq _].
  apply scanUint_bound in H4 as [_ Hty]. change (2 ^ 8) with 256 in Hty.
  apply convertString_token in H7. apply convertString_token in H10.
  repeat split; try done; try (by destruct H7); try (by destruct H10).
  by apply Sscanf_record.
Qed.

(** X9. Numbers out of range are refused, not wrapped: a line whose first
    field is a numeral of 2^64 or more is a parse error, and so is a line
    whose second field is a numeral of 256 or more. *)
Theorem Sscanf_refuses_numbers_out_of_range tok rest :
  numeral tok -> at_end_of_field rest ->
  (uint64_limit <= digits_value 0 tok ->
   Sscanf (tok ++ rest) = inr ValueOutOfRange) /\
  (forall sequence,
     sequence < uint64_limit -> 256 <= digits_value 0 tok ->
     exists err, Sscanf (FormatUint sequence ++ TAB :: tok ++ rest) = inr err /\
                 (err = UnsignedOverflow \/ err = ValueOutOfRange)).
Proof.
  intros [Hne Htok] Hrest.
  assert (forall bitSize, 2 ^ bitSize <= uint64_limit ->
            2 ^ bitSize <= digits_value 0 tok ->
            exists err, scanUint bitSize (tok ++ rest) = inr err /\
              (err = UnsignedOverflow \/ err = ValueOutOfRange) /\
              (uint64_limit <= digits_value 0 tok -> err = ValueOutOfRange))
    as Hscan.
  { intros bitSize Hbits Hbig. unfold scanUint.
    rewrite SkipSpace_at_field by by apply at_field_app, digits_not_space.
    cbn [bind]. destruct (tok ++ rest) as [|r s] eqn:Heq.
    { by destruct tok. }
    rewrite <- Heq, accept_digits_app; [|done|by apply at_end_of_field_not_digit].
    destruct tok as [|d tok]; [done|]. unfold ParseUint.
    destruct (N.ltb_spec (digits_value 0 (d :: tok)) uint64_limit).
    - destruct (N.ltb_spec (digits_value 0 (d :: tok)) (2 ^ bitSize)); [lia|].
      eexists. split; [done|]. split; [by left|lia].
    - eexists. split; [done|]. split; [by right|done]. }
  split.
  - intros Hbig. unfold Sscanf.
    rewrite SkipSpace_at_field by by apply at_field_app, digits_not_space.
    cbn [bind].
    destruct (Hscan 64) as (err & -> & _ & Herr); [done|done|].
    by rewrite Herr.
  - intros sequence Hseq Hbig. unfold Sscanf.
    pose proof (numeral_FormatUint sequence) as [Hn1 Hd1].
    rewrite SkipSpace_at_field by by apply at_field_app, digits_not_space.
    cbn [bind].
    rewrite (scanUint_token 64 _ sequence)
      by by auto using ParseUint_FormatUint, numeral_FormatUint.
    cbn [bind].
    change (TAB :: tok ++ rest) with ([TAB] ++ tok ++ rest).
    rewrite advance_tab_blanks;
      [|done|by repeat constructor|by apply at_field_app, digits_not_space].
    cbn [bind].
    rewrite SkipSpace_at_field by by apply at_field_app, digits_not_space.
    cbn [bind].
    destruct (Hscan 8) as (err & -> & Herr & _); [by cbn|done|].
    by exists err.
Qed.

End ScannerLatitude.

(** ** What a replay sends *)

Section ReplayStream.

Implicit Types (l : FileTransactionLogger) (sent : list Signal)
  (lines : list (list rune)) (es evs : list Event).

Lemma read_loop_shape lines : forall from tooLong,
  exists evs errs,
    (read_loop from lines tooLong).1 = map OutEvent evs ++ map OutError errs /\
    (length errs <= 1)%nat /\
    Forall2 (fun line e => Sscanf line = inl e) (take (length evs) lines) evs.
Proof.
  induction lines as [|line lines IH]; intros from tooLong; cbn [read_loop].
  - exists [], (if tooLong then [ErrReadFailure] else []).
    destruct tooLong; cbn; repeat split; (lia || constructor).
  - destruct (Sscanf line) as [e|err] eqn:Hline.
    + destruct (N.leb_spec (Sequence e) from).
      * exists [], [ErrOutOfSequence]. cbn. repeat split; (lia || constructor).
      * destruct (IH (Sequence e) tooLong) as (evs & errs & Hsent & Hone & Hparse).
        destruct (read_loop (Sequence e) lines tooLong) as [sent last'].
        cbn [fst] in *. exists (e :: evs), errs. rewrite Hsent. cbn.
        repeat split; [done|]. by constructor.
    + exists [], [ErrInputParse err]. cbn. repeat split; (lia || constructor).
Qed.

Lemma sent_events_shape evs errs :
  sent_events (map OutEvent evs ++ map OutError errs) = evs.
Proof.
  rewrite sent_events_app, sent_events_events.
  induction errs as [|err errs IH]; cbn; [by rewrite app_nil_r|done].
Qed.

Lemma sent_errors_shape evs errs :
  sent_errors (map OutEvent evs ++ map OutError errs) = errs.
Proof.
  rewrite sent_errors_app, sent_errors_events. cbn.
  induction errs as [|err errs IH]; cbn; [done|]. by f_equal.
Qed.

(** X10. Whatever the log holds, a replay sends events and then at most
    one error, and nothing after the error. The events are the first
    lines of the log as the scanner reads them, their sequence numbers
    increase strictly from the logger's last sequence number on, the
    logger is left with the highest of them, and the file is not
    changed. *)
Theorem ReadEvents_sends_events_then_one_error l :
  exists evs errs,
    (ReadEvents l).1 = map OutEvent evs ++ map OutError errs /\
    (length errs <= 1)%nat /\
    Forall2 (fun line e => Sscanf line = inl e)
      (take (length evs) (scan_lines (file l)).1) evs /\
    StronglySorted N.lt (lastSequence l :: map Sequence evs) /\
    lastSequence (ReadEvents l).2 = running_max (lastSequence l) (map Sequence evs) /\
    file (ReadEvents l).2 = file l.
Proof.
  rewrite ReadEvents_sent, ReadEvents_logger. cbn [lastSequence file].
  destruct (scan_lines (file l)) as [lines tooLong]. cbn [fst snd].
  destruct (read_loop_shape lines (lastSequence l) tooLong)
    as (evs & errs & Hsent & Hone & Hparse).
  exists evs, errs. repeat split; try done.
  - pose proof (read_loop_sorted lines (lastSequence l) tooLong []) as Hsorted.
    rewrite Hsent, sent_events_shape, app_nil_r in Hsorted.
    apply Sorted_StronglySorted; [intros ? ? ?; apply N.lt_trans|].
    apply Hsorted. by repeat constructor.
  - rewrite read_loop_running_max, Hsent. by rewrite sent_events_shape.
Qed.

Lemma read_loop_clean_inv lines : forall from tooLong,
  sent_errors (read_loop from lines tooLong).1 = [] ->
  exists es,
    Forall2 (fun line e => Sscanf line = inl e) lines es /\
    in_order from (map Sequence es) = true.
Proof.
  induction lines as [|line lines IH]; intros from tooLong; cbn [read_loop].
  - intros _. by exists [].
  - destruct (Sscanf line) as [e|err] eqn:Hline; [|done].
    destruct (N.leb_spec (Sequence e) from) as [|Hlt]; [done|].
    specialize (IH (Sequence e) tooLong).
    destruct (read_loop (Sequence e) lines tooLong) as [sent last']. cbn [fst] in *.
    intros Hclean. destruct (IH Hclean) as (es & Hparse & Hord).
    exists (e :: es). split; [by constructor|]. cbn.
    rewrite N.max_r by lia. apply andb_true_intro. split; [|done].
    by apply N.ltb_lt.
Qed.

(** X11. A replay sends no error exactly when the scanner reads the log
    to its end, every line parses, and every sequence number exceeds the
    logger's last sequence number and all the ones before it; the replay
    then sends the events of all the lines. *)
Theorem ReadEvents_is_clean_iff l :
  sent_errors (ReadEvents l).1 = [] <->
  (scan_lines (file l)).2 = false /\
  exists es,
    Forall2 (fun line e => Sscanf line = inl e) (scan_lines (file l)).1 es /\
    in_order (lastSequence l) (map Sequence es) = true /\
    (ReadEvents l).1 = map OutEvent es.
Proof.
  rewrite ReadEvents_sent.
  destruct (scan_lines (file l)) as [lines tooLong]. cbn [fst snd]. split.
  - intros Hclean. pose proof (read_loop_clean_scan _ _ _ Hclean) as ->.
    split; [done|].
    destruct (read_loop_clean_inv _ _ _ Hclean) as (es & Hparse & Hord).
    exists es. by rewrite (read_loop_in_order _ _ _ Hparse Hord).
  - intros (-> & es & Hparse & Hord & ->). apply sent_errors_events.
Qed.

Lemma next_sequence_iter es : forall from,
  from + N.of_nat (length es) < uint64_limit ->
  fold_left (fun n (_ : Event) => next_sequence n) es from
  = from + N.of_nat (length es).
Proof.
  induction es as [|e es IH]; intros from Hlen; cbn [fold_left length] in *.
  - lia.
  - rewrite next_sequence_succ by lia. rewrite IH by lia. lia.
Qed.

Lemma records_app es1 : forall from es2,
  records from (es1 ++ es2)
  = records from es1
      ++ records (fold_left (fun n (_ : Event) => next_sequence n) es1 from) es2.
Proof.
  induction es1 as [|e es1 IH]; intros from es2; [done|].
  cbn [app records fold_left]. by rewrite IH, <- app_assoc.
Qed.

(** The replay of a log that begins with the records of readable events
    delivers them and goes on with what follows. *)
Lemma ReadEvents_records_then es rest :
  Forall readable (sequenced 0 es) ->
  N.of_nat (length es) < uint64_limit ->
  (ReadEvents (fresh (records 0 es ++ rest))).1
  = map OutEvent (sequenced 0 es)
      ++ (read_loop (N.of_nat (length es)) (scan_lines rest).1 (scan_lines rest).2).1.
Proof.
  intros Hes Hlen. rewrite ReadEvents_sent. cbn [fresh file lastSequence].
  unfold scan_lines. rewrite scan_from_records_then by done. cbn [fst snd].
  rewrite read_loop_app, read_loop_records by done.
  by rewrite sent_errors_events, N.add_0_l.
Qed.

Lemma record_line_plain sequence eventType key value :
  Forall (fun r => r <> NL) key -> Forall (fun r => r <> NL) value ->
  Forall (fun r => r <> NL) (record_line sequence eventType key value).
Proof.
  intros Hk Hv. unfold record_line.
  repeat first [ apply Forall_app; split | apply Forall_cons; split ];
    try done; auto using digits_no_NL, FormatUint_isDigit.
Qed.

Lemma record_line_empty_value_dropCR sequence eventType key :
  dropCR (record_line sequence eventType key [])
  = record_line sequence eventType key [].
Proof.
  assert (record_line sequence eventType key []
          = (FormatUint sequence ++ TAB :: FormatUint eventType ++ TAB :: key)
              ++ [TAB]) as ->.
  { unfold record_line. repeat (rewrite <- ?app_assoc; cbn [app]; f_equal). }
  unfold dropCR. by rewrite last_snoc.
Qed.

(** X12. The record of a Delete stops every later replay. Let the writer,
    started on an empty log, write N events, then the Delete of a key,
    then any other events, where N + 1 is below 2^64; each of the N
    events, numbered as it is written, has a key and a value that are not
    empty and hold no white space, a kind below 256 and a record of at
    most 65536 bytes, newline included; and the key of the Delete is not
    empty and holds no white space, and its record, numbered N + 1, is of
    at most 65536 bytes. Then a replay of that log delivers the N events
    and then the parse error of the Delete's record (unexpected end of
    input, as the record has no fourth field): neither the Delete nor
    anything written after it is delivered. *)
Theorem delete_record_stops_replay es key more :
  Forall readable (sequenced 0 es) ->
  clean key ->
  byte_len (print_event {| Sequence := N.of_nat (length es) + 1;
                           EventType := EventDelete; Key := key; Value := [] |})
    <= MaxScanTokenSize ->
  N.of_nat (length es) + 1 < uint64_limit ->
  (ReadEvents (fresh (records 0 (es ++ WriteDelete key :: more)))).1
  = map OutEvent (sequenced 0 es) ++ [OutError (ErrInputParse UnexpectedEOF)].
Proof.
  intros Hes Hkey Hfit Hlen.
  rewrite records_app, next_sequence_iter by lia.
  rewrite ReadEvents_records_then by (done || lia). f_equal.
  cbn [records WriteDelete EventType Key Value]. rewrite N.add_0_l.
  rewrite next_sequence_succ by lia.
  unfold print_event in Hfit. cbn [Sequence EventType Key Value] in Hfit.
  rewrite Fprintf_record_line, byte_len_app in Hfit.
  change (byte_len [NL]) with 1 in Hfit.
  rewrite Fprintf_record_line, <- app_assoc. cbn [app]. unfold scan_lines.
  rewrite scan_from_line
    by (apply record_line_plain; [by apply clean_no_NL|constructor]).
  cbn [app]. rewrite record_line_empty_value_dropCR.
  unfold too_long.
  destruct (N.leb_spec MaxScanTokenSize
              (byte_len (record_line (N.of_nat (length es) + 1)
                           EventDelete key []))); [lia|].
  cbn [fst snd read_loop].
  by rewrite Sscanf_empty_value.
Qed.

Lemma record_line_byte_len_value sequence eventType key value :
  byte_len value <= byte_len (record_line sequence eventType key value).
Proof.
  unfold record_line.
  repeat first [ rewrite byte_len_app
               | match goal with
                 | |- context [byte_len (?r :: ?s)] =>
                     change (byte_len (r :: s)) with (utf8_len r + byte_len s)
                 end ].
  lia.
Qed.

(** X13. A value of 65536 bytes or more makes the log unreadable from its
    record on. Let the writer, started on an empty log, write N events,
    with N below 2^64, then an event whose key and value hold no newline
    and whose value is of 65536 bytes or more, then any other events,
    where each of the N events, numbered as it is written, has a key and
    a value that are not empty and hold no white space, a kind below 256
    and a record of at most 65536 bytes, newline included. Then a replay
    of that log delivers the N events and then the error of the scanner:
    the event with the long value and everything written after it are not
    delivered. *)
Theorem oversized_record_stops_replay es big more :
  Forall readable (sequenced 0 es) ->
  Forall (fun r => r <> NL) (Key big) ->
  Forall (fun r => r <> NL) (Value big) ->
  MaxScanTokenSize <= byte_len (Value big) ->
  N.of_nat (length es) < uint64_limit ->
  (ReadEvents (fresh (records 0 (es ++ big :: more)))).1
  = map OutEvent (sequenced 0 es) ++ [OutError ErrReadFailure].
Proof.
  intros Hes Hkey Hvalue Hbig Hlen.
  rewrite records_app, ReadEvents_records_then by done. f_equal.
  cbn [records].
  rewrite Fprintf_record_line, <- app_assoc. cbn [app]. unfold scan_lines.
  rewrite scan_from_line by by apply record_line_plain.
  cbn [app]. unfold too_long.
  set (line := record_line _ (EventType big) (Key big) (Value big)).
  pose proof (record_line_byte_len_value
                (next_sequence (fold_left (fun n (_ : Event) => next_sequence n) es 0))
                (EventType big) (Key big) (Value big)) as Hle.
  fold line in Hle.
  by destruct (N.leb_spec MaxScanTokenSize (byte_len line)); [|lia].
Qed.

End ReplayStream.

(** ** The writer after a failure *)

Section WriterBookkeeping.

Implicit Types (l : FileTransactionLogger) (s : Writer) (tr : list Label).

Lemma next_sequence_bound n : next_sequence n < uint64_limit.
Proof. unfold next_sequence. by apply N.mod_lt. Qed.

Lemma next_sequence_add n k :
  (next_sequence n + k) mod uint64_limit = (n + (1 + k)) mod uint64_limit.
Proof.
  unfold next_sequence. rewrite N.Div0.add_mod_idemp_l. f_equal. lia.
Qed.

(** X14. The log only grows and every turn of the goroutine takes one
    sequence number: after any run of the writer the file is the file it
    had followed by something, and the last sequence number has advanced,
    modulo 2^64, by the number of events taken from the channel, failed
    write included. *)
Theorem log_grows_and_sequence_counts_turns s tr s' :
  steps s tr s' ->
  lastSequence (logger s) < uint64_limit ->
  (exists suffix, file (logger s') = file (logger s) ++ suffix) /\
  lastSequence (logger s')
  = (lastSequence (logger s) + N.of_nat (length (written tr))) mod uint64_limit.
Proof.
  induction 1 as [s|s a s1 tr s2 Hstep _ IH]; intros Hlast.
  - split; [exists []; by rewrite app_nil_r|]. cbn. rewrite N.add_0_r.
    by rewrite N.mod_small.
  - destruct Hstep as [l r e Hroom|l e q w Hq]; cbn [logger] in *.
    + apply IH. done.
    + assert (lastSequence (write_event (with_events l q) e w).1
              = next_sequence (lastSequence l)) as Hnext by by destruct w.
      destruct IH as [[suffix Hfile] Hseq].
      { rewrite Hnext. apply next_sequence_bound. }
      split.
      * rewrite Hfile. destruct w; cbn; rewrite <- app_assoc; eauto.
      * change (written (Drain e w :: tr)) with (e :: written tr).
        rewrite Hseq, Hnext, next_sequence_add. f_equal. cbn [length]. lia.
Qed.

(** X15. Once the goroutine has returned, whatever is sent stays in the
    channel: every step is a send that lengthens the buffer by one, so at
    most 16 sends complete in all, and when the buffer holds 16 events no
    step is left: the next caller of [WritePut] or [WriteDelete] waits for
    ever. *)
Theorem stopped_writer_fills_up s tr s' :
  running s = false ->
  (length (events (logger s)) <= events_capacity)%nat ->
  steps s tr s' ->
  length (events (logger s')) = (length (events (logger s)) + length tr)%nat /\
  (length (events (logger s)) + length tr <= 16)%nat /\
  (length (events (logger s')) = 16%nat -> forall a s'', ~ step s' a s'').
Proof.
  intros Hstop Hcap Hsteps.
  assert (running s' = false) as Hstop'
    by (by apply steps_stopped in Hsteps as [? _]).
  pose proof (steps_capacity _ _ _ Hsteps Hcap) as Hcap'.
  assert (length (events (logger s')) = (length (events (logger s)) + length tr)%nat)
    as Hlen.
  { clear Hcap Hcap' Hstop'. induction Hsteps as [s|s a s1 tr s2 Hstep _ IH].
    - cbn. lia.
    - destruct Hstep as [l r e Hroom|l e q w Hq]; cbn in *; [|done].
      rewrite IH by done. rewrite length_app. cbn. lia. }
  split; [done|]. split; [unfold events_capacity in *; lia|].
  intros Hfull a s'' Hstep. destruct Hstep as [l r e Hroom|l e q w Hq]; cbn in *.
  - unfold events_capacity in *. lia.
  - done.
Qed.

End WriterBookkeeping.

(** ** Start-up, from the log to the store *)

Section StartupReplay.

Implicit Types (data : Store) (es evs : list Event).

Lemma replay_shape evs errs late : forall data,
  replay data (map OutEvent evs ++ map OutError errs) late
  = (fold_left (fun d e => (apply_event d e).1) evs data,
     if late then None else head errs).
Proof.
  induction evs as [|e evs IH]; intros data.
  - destruct errs as [|err errs]; cbn; by destruct late.
  - cbn [map app replay fold_left].
    pose proof (apply_event_no_error data e) as Hnone.
    destruct (apply_event data e) as [data' [err|]]; [done|]. apply IH.
Qed.

(** X16. Start-up on a log that opens applies to the store exactly the
    events that the replay delivers, in their order, and starts the writer
    on the logger the replay leaves, whether or not the replay failed. It
    returns the error of the replay, or none if the replay sent none; when
    the loop reaches its [select] only after both channels are closed and
    takes the event channel, it returns none although an error was
    sent. *)
Theorem initializeTransactionLog_applies_what_replay_delivers content data late :
  initializeTransactionLog (inl content) data late
  = (fold_left (fun d e => (apply_event d e).1)
       (sent_events (ReadEvents (fresh content)).1) data,
     Some (Run (ReadEvents (fresh content)).2),
     if late then None else head (sent_errors (ReadEvents (fresh content)).1)).
Proof.
  unfold initializeTransactionLog. cbn [NewFileTransactionLogger]. fold (fresh content).
  pose proof (ReadEvents_sent (fresh content)) as Hsent.
  destruct (ReadEvents (fresh content)) as [sent l']. cbn [fst snd] in *.
  destruct (read_loop_shape (scan_lines (file (fresh content))).1
              (lastSequence (fresh content)) (scan_lines (file (fresh content))).2)
    as (evs & errs & Hshape & _).
  subst sent. rewrite Hshape.
  by rewrite replay_shape, sent_events_shape, sent_errors_shape.
Qed.

Lemma fold_apply_sequenced es : forall from data,
  fold_left (fun d e => (apply_event d e).1) (sequenced from es) data
  = fold_left (fun d e => (apply_event d e).1) es data.
Proof.
  induction es as [|e es IH]; intros from data; [done|].
  cbn [sequenced fold_left]. by rewrite IH.
Qed.

Lemma ReadEvents_records es :
  Forall readable (sequenced 0 es) ->
  N.of_nat (length es) < uint64_limit ->
  ReadEvents (fresh (records 0 es))
  = (map OutEvent (sequenced 0 es),
     {| events := []; errors := []; lastSequence := N.of_nat (length es);
        file := records 0 es |}).
Proof.
  intros Hes Hlen. unfold ReadEvents. cbn [fresh file lastSequence events errors].
  unfold scan_lines. rewrite scan_from_records by done.
  rewrite read_loop_records by done. by rewrite N.add_0_l.
Qed.

Lemma restart_on_records es data late :
  Forall readable (sequenced 0 es) ->
  N.of_nat (length es) < uint64_limit ->
  initializeTransactionLog (inl (records 0 es)) data late
  = (fold_left (fun d e => (apply_event d e).1) es data,
     Some {| events := []; errors := []; lastSequence := N.of_nat (length es);
             file := records 0 es |},
     None).
Proof.
  intros Hes Hlen.
  unfold initializeTransactionLog. cbn [NewFileTransactionLogger].
  fold (fresh (records 0 es)). rewrite ReadEvents_records by done.
  pose proof (replay_shape (sequenced 0 es) [] late data) as Hreplay.
  cbn [map] in Hreplay. rewrite app_nil_r in Hreplay. rewrite Hreplay.
  rewrite fold_apply_sequenced. by destruct late.
Qed.

(** X17. A restart on the log of readable events recovers them. Let the
    writer, started on an empty log, have written all of the N events
    submitted, N below 2^64, each of which, numbered as it is written,
    has a key and a value that are not empty and hold no white space, a
    kind below 256 and a record of at most 65536 bytes, newline included.
    Then start-up on its file applies the events to the store in the
    order written, whatever their kind, returns no error, and leaves the
    writer started with N as last sequence number. *)
Theorem restart_applies_the_written_events tr s data late :
  steps (mkWriter (Run (fresh [])) true) tr s ->
  forallb write_ok tr = true ->
  events (logger s) = [] ->
  Forall readable (sequenced 0 (submitted tr)) ->
  N.of_nat (length (submitted tr)) < uint64_limit ->
  initializeTransactionLog (inl (file (logger s))) data late
  = (fold_left (fun d e => (apply_event d e).1) (submitted tr) data,
     Some {| events := []; errors := []; file := file (logger s);
             lastSequence := N.of_nat (length (submitted tr)) |},
     None).
Proof.
  intros Hsteps Hok Hempty Hes Hlen.
  rewrite (drained_log _ _ _ Hsteps Hok Hempty). cbn [fresh file lastSequence app].
  by apply restart_on_records.
Qed.

(** X18. The store survives a restart when no DELETE was served. Let a
    server start with the empty store and a logger on an empty log, and
    run a schedule of PUT and GET requests, each answered, and turns of
    the writer's goroutine, each write succeeding, that leaves the buffer
    empty. Let the N PUT requests of the schedule whose bodies were read
    be fewer than 2^64 and have, each with the number of its event, a key
    and a body that are not empty and hold no white space and a record of
    at most 65536 bytes, newline included. Then start-up on the log that
    the schedule leaves returns no error and gives, from the empty store,
    the store and the logger that the schedule left. *)
Theorem restart_recovers_served_puts sched data' w' resps late :
  run ∅ (Some (mkWriter (Run (fresh [])) true)) sched = Some (data', Some w', resps) ->
  Forall not_delete sched ->
  forallb turn_ok sched = true ->
  events (logger w') = [] ->
  Forall readable (sequenced 0 (puts_of sched)) ->
  N.of_nat (length (puts_of sched)) < uint64_limit ->
  initializeTransactionLog (inl (file (logger w'))) ∅ late
  = (data', Some (logger w'), None).
Proof.
  intros Hrun Hnd Hturns Hempty Hes Hlen.
  destruct (run_steps _ _ _ _ _ _ Hrun)
    as (w & tr & [= <-] & Hsteps & Hfold & Hok & Hputs).
  specialize (Hok Hturns). specialize (Hputs Hnd). rewrite <- Hputs in *.
  pose proof (steps_fifo _ _ _ Hsteps) as Hfifo. cbn in Hfifo.
  rewrite Hempty, app_nil_r in Hfifo.
  destruct (steps_write_all _ _ _ Hsteps Hok) as [_ Hlogger].
  rewrite Hempty, <- Hfifo, write_all_spec in Hlogger.
  cbn [logger Run fresh events errors lastSequence file with_events app] in Hlogger.
  rewrite next_sequence_iter in Hlogger by by rewrite N.add_0_l.
  rewrite N.add_0_l in Hlogger.
  rewrite Hlogger. cbn [with_events events errors lastSequence file].
  rewrite restart_on_records by done. by rewrite Hfold.
Qed.

End StartupReplay.

(** ** Delimiters inside a value *)

Section Delimiters.

(** X19. The writer does not escape what it prints: the record of a Put
    whose value holds a newline is read back as two lines. Let the value
    be a first part, a newline, and the record, without its newline, of
    an event [f], where the key and the first part are not empty and hold
    no white space and the record of the Put of the key and the first
    part, numbered 1, is of at most 65536 bytes, newline included; [f]
    has a key and a value that are not empty and hold no white space, a
    kind below 256, a record of at most 65536 bytes and a sequence number
    above 1 and below 2^64. Then a replay of the log of that single Put,
    written to an empty log, delivers the Put with the value cut at the
    newline and then the event [f]. *)
Theorem newline_in_value_splits_the_record key value f :
  readable {| Sequence := 1; EventType := EventPut; Key := key; Value := value |} ->
  readable f -> 1 < Sequence f -> Sequence f < uint64_limit ->
  (ReadEvents
     (fresh (records 0
        [WritePut key
           (value ++ NL ::
              record_line (Sequence f) (EventType f) (Key f) (Value f))]))).1
  = [OutEvent {| Sequence := 1; EventType := EventPut; Key := key; Value := value |};
     OutEvent f].
Proof.
  intros (_ & Hkey & Hvalue & Hfit) (Hty & Hfk & Hfv & Hffit) Hafter Hseq.
  unfold print_event in Hfit, Hffit. cbn [Sequence EventType Key Value] in *.
  rewrite Fprintf_record_line, byte_len_app in Hfit, Hffit.
  change (byte_len [NL]) with 1 in *.
  assert (forall inner,
            records 0 [WritePut key (value ++ NL :: inner)]
            = record_line 1 EventPut key value ++ NL :: inner ++ NL :: []) as ->.
  { intros inner. cbn [records WritePut EventType Key Value].
    change (next_sequence 0) with 1.
    unfold Fprintf, record_line. rewrite app_nil_r.
    repeat (rewrite <- ?app_assoc; cbn [app]; f_equal). }
  rewrite ReadEvents_sent. cbn [fresh file lastSequence]. unfold scan_lines.
  rewrite scan_from_line by by apply record_line_no_NL.
  rewrite scan_from_line by by apply record_line_no_NL.
  cbn [app scan_from fst snd].
  rewrite !record_line_dropCR by done. unfold too_long.
  destruct (N.leb_spec MaxScanTokenSize (byte_len (record_line 1 EventPut key value)));
    [lia|].
  destruct (N.leb_spec MaxScanTokenSize
              (byte_len (record_line (Sequence f) (EventType f) (Key f) (Value f))));
    [lia|].
  cbn [fst snd read_loop]. unfold record_line.
  rewrite !Sscanf_record by (done || by cbn).
  cbn [Sequence].
  destruct (N.leb_spec 1 0); [lia|].
  destruct (N.leb_spec (Sequence f) 1); [lia|].
  cbn. by destruct f.
Qed.

End Delimiters.

(** ** The further properties on sample inputs *)

Section FurtherSamples.

Example mutations_of_distinct_keys_commute_witness :
  apply_op (apply_op ∅ (OpPut (runes "a") (runes "1"))) (OpDelete (runes "b"))
  = apply_op (apply_op ∅ (OpDelete (runes "b"))) (OpPut (runes "a") (runes "1")).
Proof.
  apply (mutations_of_distinct_keys_commute ∅
           (OpPut (runes "a") (runes "1")) (OpDelete (runes "b"))).
  vm_compute. discriminate.
Defined.

Lemma sample_schedule_run :
  run ∅ (Some (mkWriter (Run (fresh [])) true)) sample_schedule
  = Some (sample_store, Some sample_server, sample_responses).
Proof. vm_compute. reflexivity. Qed.

Lemma sample_put_schedule_run :
  run ∅ (Some (mkWriter (Run (fresh [])) true)) sample_put_schedule
  = Some (sample_put_store, Some sample_put_server, sample_put_responses).
Proof. vm_compute. reflexivity. Qed.

Example served_store_is_replay_of_sent_events_witness :
  exists w' wrote,
    Some sample_server = Some w' /\ running w' = true /\
    file (logger w') = file (fresh []) ++ records (lastSequence (fresh [])) wrote /\
    fold_left (fun d e => (apply_event d e).1) (wrote ++ events (logger w')) ∅
    = sample_store.
Proof.
  apply (proj2 (served_store_is_replay_of_sent_events
                  ∅ sample_schedule sample_store (Some sample_server)
                  sample_responses) (fresh [])).
  - apply sample_schedule_run.
  - reflexivity.
Defined.

Example delete_of_missing_key_is_not_found_witness :
  keyValueDeleteHandler ∅ None (runes "a")
  = (∅, None, Responded {| status := 404; body := ErrorText ErrorNoSuchKey |}).
Proof.
  apply (proj1 (delete_of_missing_key_is_not_found ∅ None (runes "a"))).
  reflexivity.
Defined.

Example get_after_put_returns_the_body_witness :
  keyValuePutHandler ∅ None (runes "a") (inl (runes "1"))
  = (<[runes "a" := runes "1"]> ∅, None, Panicked) /\
  keyValuePutHandler ∅ (Some (logger sample_full)) (runes "a") (inl (runes "1"))
  = (<[runes "a" := runes "1"]> ∅, Some (logger sample_full),
     Waiting (WritePut (runes "a") (runes "1"))) /\
  keyValueGetHandler
    (keyValuePutHandler ∅ None (runes "a") (inl (runes "1"))).1.1 (runes "a")
  = {| status := 200; body := Text (runes "1") |}.
Proof.
  destruct (get_after_put_returns_the_body ∅ None (runes "a") (runes "1"))
    as (Hget & _ & _ & Hnil & _).
  destruct (get_after_put_returns_the_body ∅ (Some (logger sample_full))
              (runes "a") (runes "1"))
    as (_ & _ & _ & _ & Hfull).
  split; [exact (Hnil eq_refl)|]. split; [|exact Hget].
  apply (Hfull (logger sample_full) eq_refl). cbn. lia.
Defined.

Example unlogged_request_leaves_store_witness :
  (serve ∅ (Some (logger sample_full)) (PUT (runes "a") (inl (runes "1")))).1
  = ((apply_event ∅ (WritePut (runes "a") (runes "1"))).1,
     Some (logger sample_full)).
Proof.
  destruct (unlogged_request_leaves_store ∅ (Some (logger sample_full))
              (PUT (runes "a") (inl (runes "1"))))
    as (_ & _ & _ & Hwait).
  destruct (Hwait (WritePut (runes "a") (runes "1")) eq_refl) as (_ & _ & Hstore).
  exact Hstore.
Defined.

Example Sscanf_takes_any_blanks_witness :
  Sscanf ([32] ++ FormatUint 7 ++ [32; 32] ++ FormatUint 2 ++ [TAB; 32]
            ++ runes "k" ++ [32] ++ runes "v" ++ [32; 120])
  = inl {| Sequence := 7; EventType := 2; Key := runes "k"; Value := runes "v" |}.
Proof.
  apply (Sscanf_takes_any_blanks [32] [32; 32] [TAB; 32] [32] [32; 120]
           7 2 (runes "k") (runes "v"));
    try discriminate; try reflexivity;
    repeat first [ constructor | split ]; try discriminate; reflexivity.
Defined.

Example Sscanf_reads_printable_events_witness :
  Sequence (mkEvent 1 2 (runes "k") (runes "v")) < uint64_limit /\
  EventType (mkEvent 1 2 (runes "k") (runes "v")) < 256 /\
  clean (Key (mkEvent 1 2 (runes "k") (runes "v"))) /\
  clean (Value (mkEvent 1 2 (runes "k") (runes "v"))) /\
  Sscanf (record_line 1 2 (runes "k") (runes "v"))
  = inl (mkEvent 1 2 (runes "k") (runes "v")).
Proof.
  apply (Sscanf_reads_printable_events (runes "1 2 k v")
           (mkEvent 1 2 (runes "k") (runes "v"))).
  reflexivity.
Defined.

Example Sscanf_refuses_numbers_out_of_range_witness :
  Sscanf (runes "18446744073709551616" ++ TAB :: runes "2")
  = inr ValueOutOfRange.
Proof.
  refine (proj1 (Sscanf_refuses_numbers_out_of_range
                   (runes "18446744073709551616") (TAB :: runes "2") _ _) _).
  - split; [discriminate|]. vm_compute. repeat constructor.
  - reflexivity.
  - vm_compute. discriminate.
Defined.

Example ReadEvents_is_clean_iff_witness :
  sent_errors (ReadEvents (fresh (Fprintf 1 EventPut (runes "a") (runes "b")))).1 = [].
Proof.
  apply (proj2 (ReadEvents_is_clean_iff
                  (fresh (Fprintf 1 EventPut (runes "a") (runes "b"))))).
  split; [reflexivity|].
  exists [mkEvent 1 EventPut (runes "a") (runes "b")].
  split; [by repeat constructor|]. split; reflexivity.
Defined.

Lemma sample_put_readable : Forall readable (sequenced 0 [sample_put]).
Proof.
  repeat constructor; try discriminate; vm_compute; (reflexivity || discriminate).
Qed.

Example delete_record_stops_replay_witness :
  (ReadEvents (fresh (records 0 ([sample_put] ++ WriteDelete (runes "a") :: [])))).1
  = map OutEvent (sequenced 0 [sample_put])
      ++ [OutError (ErrInputParse UnexpectedEOF)].
Proof.
  apply (delete_record_stops_replay [sample_put] (runes "a") []).
  - apply sample_put_readable.
  - split; [discriminate|by repeat constructor].
  - vm_compute. discriminate.
  - vm_compute. reflexivity.
Defined.

Example oversized_record_stops_replay_witness :
  (ReadEvents
     (fresh (records 0
        ([sample_put] ++ WritePut (runes "k") (replicate 16384 0x10000) :: [])))).1
  = map OutEvent (sequenced 0 [sample_put]) ++ [OutError ErrReadFailure].
Proof.
  apply (oversized_record_stops_replay [sample_put]
           (WritePut (runes "k") (replicate 16384 0x10000)) []).
  - apply sample_put_readable.
  - by repeat constructor.
  - by apply Forall_replicate.
  - vm_compute. discriminate.
  - vm_compute. reflexivity.
Defined.

Example log_grows_and_sequence_counts_turns_witness :
  (exists suffix,
     file (logger sample_written) = file (Run (fresh [])) ++ suffix) /\
  lastSequence (logger sample_written)
  = (lastSequence (Run (fresh [])) + N.of_nat (length (written sample_run)))
      mod uint64_limit.
Proof.
  apply (log_grows_and_sequence_counts_turns
           (mkWriter (Run (fresh [])) true) sample_run sample_written).
  - apply sample_run_steps.
  - vm_compute. reflexivity.
Defined.

Example stopped_writer_fills_up_witness :
  length (events (logger sample_after_failure))
  = (length (events (logger sample_failed)) + 1)%nat /\
  (length (events (logger sample_failed)) + 1 <= 16)%nat /\
  (length (events (logger sample_after_failure)) = 16%nat ->
   forall a s'', ~ step sample_after_failure a s'').
Proof.
  apply (stopped_writer_fills_up sample_failed
           [Submit (WriteDelete (runes "a"))] sample_after_failure).
  - reflexivity.
  - cbn. unfold events_capacity. lia.
  - eapply steps_cons; [|apply steps_nil].
    apply (step_submit (logger sample_failed) false (WriteDelete (runes "a"))).
    cbn. unfold events_capacity. lia.
Defined.

Lemma sample_batch_readable :
  Forall readable
    (sequenced 0
       (submitted (map Submit sample_batch
                     ++ map (fun e => Drain e WriteOK) sample_batch))).
Proof.
  repeat constructor; try discriminate; vm_compute; (reflexivity || discriminate).
Qed.

Example restart_applies_the_written_events_witness :
  initializeTransactionLog (inl (file (logger sample_drained))) ∅ false
  = (fold_left (fun d e => (apply_event d e).1)
       (submitted (map Submit sample_batch
                     ++ map (fun e => Drain e WriteOK) sample_batch)) ∅,
     Some {| events := []; errors := []; file := file (logger sample_drained);
             lastSequence :=
               N.of_nat (length (submitted
                                   (map Submit sample_batch
                                      ++ map (fun e => Drain e WriteOK) sample_batch))) |},
     None).
Proof.
  apply (restart_applies_the_written_events
           (map Submit sample_batch ++ map (fun e => Drain e WriteOK) sample_batch)
           sample_drained ∅ false).
  - apply sample_drain_steps.
  - reflexivity.
  - reflexivity.
  - apply sample_batch_readable.
  - vm_compute. reflexivity.
Defined.

Lemma sample_puts_readable :
  Forall readable (sequenced 0 (puts_of sample_put_schedule)).
Proof.
  repeat constructor; try discriminate; vm_compute; (reflexivity || discriminate).
Qed.

Example restart_recovers_served_puts_witness :
  initializeTransactionLog (inl (file (logger sample_put_server))) ∅ false
  = (sample_put_store, Some (logger sample_put_server), None).
Proof.
  apply (restart_recovers_served_puts sample_put_schedule sample_put_store
           sample_put_server sample_put_responses false).
  - apply sample_put_schedule_run.
  - repeat constructor.
  - reflexivity.
  - reflexivity.
  - apply sample_puts_readable.
  - vm_compute. reflexivity.
Defined.

Example newline_in_value_splits_the_record_witness :
  (ReadEvents
     (fresh (records 0
        [WritePut (runes "a")
           (runes "b" ++ NL :: record_line 5 EventPut (runes "c") (runes "d"))]))).1
  = [OutEvent (mkEvent 1 EventPut (runes "a") (runes "b"));
     OutEvent (mkEvent 5 EventPut (runes "c") (runes "d"))].
Proof.
  apply (newline_in_value_splits_the_record (runes "a") (runes "b")
           (mkEvent 5 EventPut (runes "c") (runes "d")));
    repeat first [ split | constructor ]; try discriminate; by vm_compute.
Defined.

End FurtherSamples.
